(** * Elastos.ELA.SPV, package [sdk]: the SPV peer session

    A shallow embedding of [sdk/spvpeer.go]: the two download trackers
    ([downloadTx], [downloadBlock]), the stall detector ([stallHandler]) and
    the false-positive counters of [SPVPeer], with the message dispatch of
    [NewSPVPeer], [QueueMessage] and [StallMessage]; and of [GetSPVClient]
    of [sdk/spvclient.go].

    Conventions of the embedding.
    - A Go [map[K]struct{}] is a finite set of keys: [gset K].
    - Every tracker method runs under the tracker's mutex, so a method is one
      atomic state transformer; a method that mutates its receiver returns the
      new receiver, next to its Go result when it has one.
    - [time.Time] and [time.Duration] are integers counting nanoseconds on
      one clock; [Before] is [<] and [Add] is [+].
    - Go's [float32] is IEEE 754 binary32, taken from [SpecFloat] with a
      24-bit significand and [emax = 128].
    - The types of the packages [common], [core], [msg] and [p2p] are not
      part of this repository; they are the variables of the section. *)

From Stdlib Require Import ZArith QArith Qabs Qpower Lia List.
From Stdlib Require Import Floats.SpecFloat.
From stdpp Require Import gmap strings list pretty.

#[local] Set Warnings "-clear-no-such-hyp".
#[local] Open Scope Z_scope.

(** * Time *)

Definition Time := Z.
Definition Duration := Z.

Definition Second : Duration := 1000000000.

Definition Time_Add (t : Time) (d : Duration) : Time := t + d.
Definition Time_Before (t u : Time) : bool := t <? u.

(** [stallTickInterval = 15 * time.Second] *)
Definition stallTickInterval : Duration := 15 * Second.

(** [stallResponseTimeout = 30 * time.Second] *)
Definition stallResponseTimeout : Duration := 30 * Second.

(** * binary32 *)









(** * What the session takes from other packages *)

(** The methods of [common.Uint256], [core.Header], [core.Transaction] and
    [msg.MerkleBlock] that the session calls, and the constant [p2p.CmdInv].
    [Header] is the field of a merkle-block message, which the message
    configuration of [NewSPVPeer] fills with a [*core.Header]. *)
Class External (Uint256 core_Header core_Transaction msg_MerkleBlock : Type) := {
  Uint256_String : Uint256 → string;
  Header_Hash : core_Header → Uint256;
  Transaction_Hash : core_Transaction → Uint256;
  Header : msg_MerkleBlock → core_Header;
  CmdInv : string
}.

(** A small instance, for running the definitions: identifiers, headers
    and transactions are numbers, a header or transaction hashes to itself,
    and an identifier prints in decimal. *)
#[local] Instance numbered : External N N N N := {|
  Uint256_String := pretty;
  Header_Hash := id;
  Transaction_Hash := id;
  Header := id;
  CmdInv := "inv"
|}.

(** * [sdk/spvclient.go] *)

(** What [GetSPVClient] takes from the rest of the package: the names and
    the magic numbers of the two networks, and [NewSPVClientImpl], which
    returns a client and an error, each of which may be [nil]. *)
Class Networks (SPVClient : Type) := {
  TypeMainNet : string;
  TypeTestNet : string;
  MainNetMagic : Z;
  TestNetMagic : Z;
  NewSPVClientImpl :
    Z → Z → list string → option SPVClient * option string
}.

(** [switch netType { case TypeMainNet: magic = MainNetMagic;
      case TypeTestNet: magic = TestNetMagic;
      default: return nil, errors.New(...) }] *)
Definition net_magic `{Networks SPVClient} (netType : string) : option Z :=
  if bool_decide (netType = TypeMainNet) then Some MainNetMagic
  else if bool_decide (netType = TypeTestNet) then Some TestNetMagic
  else None.

Definition GetSPVClient `{Networks SPVClient}
    (netType : string) (clientId : Z) (seeds : list string)
  : option SPVClient * option string :=
  match net_magic netType with
  | Some magic => NewSPVClientImpl magic clientId seeds
  | None => (None, Some "Unknown net type ")
  end.

(** A small instance, for running [GetSPVClient]: a client is the magic
    number and the identifier it was made with. *)
#[local] Instance two_networks : Networks (Z * Z) := {|
  TypeMainNet := "MainNet";
  TypeTestNet := "TestNet";
  MainNetMagic := 1;
  TestNetMagic := 2;
  NewSPVClientImpl magic clientId seeds := (Some (magic, clientId), None)
|}.

(** * The peer session *)

Section SPVPeer.
Context {Uint256 : Type} {Uint256_eq : EqDecision Uint256}
  {Uint256_countable : Countable Uint256}.
Context {core_Header core_Transaction msg_MerkleBlock : Type}.
Context `{!External Uint256 core_Header core_Transaction msg_MerkleBlock}.

(** ** Download trackers *)

(** [type downloadTx struct { mutex; queue map[common.Uint256]struct{} }] *)
Record downloadTx := { queue : gset Uint256 }.

Definition newDownloadTx : downloadTx := {| queue := ∅ |}.

(** [d.queue[txId] = struct{}{}] *)
Definition downloadTx_queueTx (d : downloadTx) (txId : Uint256) : downloadTx :=
  {| queue := {[txId]} ∪ queue d |}.

(** [_, ok := d.queue[txId]; if !ok { return false };
    delete(d.queue, txId); return true] *)
Definition downloadTx_dequeueTx (d : downloadTx) (txId : Uint256)
  : downloadTx * bool :=
  let ok := bool_decide (txId ∈ queue d) in
  if negb ok then (d, false)
  else ({| queue := queue d ∖ {[txId]} |}, true).

(** [type downloadBlock struct { mutex; *msg.MerkleBlock; txQueue; txs }];
    the embedded pointer is [nil] until a merkle block is stored. *)
Record downloadBlock := {
  MerkleBlock : option msg_MerkleBlock;
  txQueue : gset Uint256;
  txs : list core_Transaction
}.

Definition newDownloadBlock : downloadBlock :=
  {| MerkleBlock := None; txQueue := ∅; txs := [] |}.

Definition downloadBlock_enqueueTx (d : downloadBlock) (txId : Uint256)
  : downloadBlock :=
  {| MerkleBlock := MerkleBlock d;
     txQueue := {[txId]} ∪ txQueue d;
     txs := txs d |}.

Definition downloadBlock_dequeueTx (d : downloadBlock) (txId : Uint256)
  : downloadBlock * bool :=
  let ok := bool_decide (txId ∈ txQueue d) in
  if negb ok then (d, false)
  else ({| MerkleBlock := MerkleBlock d;
           txQueue := txQueue d ∖ {[txId]};
           txs := txs d |}, true).

(** [return len(d.txQueue) == 0] *)
Definition downloadBlock_finished (d : downloadBlock) : bool :=
  Nat.eqb (size (txQueue d)) 0.

(** Sequences of tracker calls, as a caller issues them. *)
Inductive trackerOp :=
| Enqueue (txId : Uint256)
| Dequeue (txId : Uint256).

Definition downloadTx_call (d : downloadTx) (o : trackerOp) : downloadTx :=
  match o with
  | Enqueue txId => downloadTx_queueTx d txId
  | Dequeue txId => fst (downloadTx_dequeueTx d txId)
  end.

Definition downloadBlock_call (d : downloadBlock) (o : trackerOp)
  : downloadBlock :=
  match o with
  | Enqueue txId => downloadBlock_enqueueTx d txId
  | Dequeue txId => fst (downloadBlock_dequeueTx d txId)
  end.

Definition downloadTx_run (ops : list trackerOp) : downloadTx :=
  foldl downloadTx_call newDownloadTx ops.

Definition downloadBlock_run (ops : list trackerOp) : downloadBlock :=
  foldl downloadBlock_call newDownloadBlock ops.

(** The identifiers a sequence enqueues and dequeues, in call order. *)
Fixpoint enqueued (ops : list trackerOp) : list Uint256 :=
  match ops with
  | [] => []
  | Enqueue txId :: ops' => txId :: enqueued ops'
  | Dequeue _ :: ops' => enqueued ops'
  end.

Fixpoint dequeued (ops : list trackerOp) : list Uint256 :=
  match ops with
  | [] => []
  | Enqueue _ :: ops' => dequeued ops'
  | Dequeue txId :: ops' => txId :: dequeued ops'
  end.

(** Every dequeue names an identifier that an earlier call enqueued. *)
Definition dequeues_follow_enqueues (ops : list trackerOp) : Prop :=
  ∀ pre txId post,
    ops = pre ++ Dequeue txId :: post → txId ∈ enqueued pre.

(** What one call does to the tracked set. *)
Definition set_call (q : gset Uint256) (o : trackerOp) : gset Uint256 :=
  match o with
  | Enqueue txId => {[txId]} ∪ q
  | Dequeue txId => q ∖ {[txId]}
  end.

(** The size property in the specification's own words: distinct enqueues,
    dequeues of identifiers enqueued before, no more dequeues than enqueues,
    and a tracked set of size [N - M]. *)
Definition size_is_enqueues_minus_dequeues (ops : list trackerOp) : Prop :=
  NoDup (enqueued ops) → dequeues_follow_enqueues ops →
  (length (dequeued ops) ≤ length (enqueued ops))%nat →
  size (queue (downloadTx_run ops))
  = (length (enqueued ops) - length (dequeued ops))%nat.

(** ** Protocol messages *)

(** [msg.InvVect]: an inventory type and a hash. *)
Record InvVect := { InvVect_Type : Z; InvVect_Hash : Uint256 }.

(** The dynamic types of a [p2p.Message] that the session distinguishes;
    only the fields the stall detector reads are kept. *)
Inductive Message :=
| GetBlocks
| Inventory
| GetData (InvList : list InvVect)
| MerkleBlockMsg (m : msg_MerkleBlock)
| Tx (Transaction : core_Transaction)
| NotFound
| Reject
| OtherMessage.

(** ** Stall detector *)

(** The state [stallHandler] works on: the connection flag of the embedded
    [net.Peer], read by [Connected()] and cleared by [Disconnect()], and the
    two locals of the handler. *)
Record stall := {
  connected : bool;
  pendingResponses : gset string;
  lastActive : Time
}.

Definition Connected (s : stall) : bool := connected s.

Definition Disconnect (s : stall) : stall :=
  {| connected := false;
     pendingResponses := pendingResponses s;
     lastActive := lastActive s |}.

Definition set_lastActive (t : Time) (s : stall) : stall :=
  {| connected := connected s;
     pendingResponses := pendingResponses s;
     lastActive := t |}.

Definition set_pendingResponses (p : gset string) (s : stall) : stall :=
  {| connected := connected s;
     pendingResponses := p;
     lastActive := lastActive s |}.

(** [for _, iv := range message.InvList
       { pendingResponses[iv.Hash.String()] = struct{}{} }] *)
Definition add_expected (p : gset string) (InvList : list InvVect)
  : gset string :=
  foldl (λ p iv, {[Uint256_String (InvVect_Hash iv)]} ∪ p) p InvList.

(** What wakes the [select] of the handler, with the value [time.Now()]
    has in that iteration. *)
Inductive event :=
| ctrMsg (now : Time) (message : Message)
| stallTick (now : Time).

(** [case ctrMsg := <-p.stallControl] *)
Definition on_ctrMsg (now : Time) (message : Message) (s : stall) : stall :=
  let s := set_lastActive now s in
  match message with
  | GetBlocks =>
      set_pendingResponses ({[CmdInv]} ∪ pendingResponses s) s
  | Inventory =>
      set_pendingResponses (pendingResponses s ∖ {[CmdInv]}) s
  | GetData InvList =>
      set_pendingResponses (add_expected (pendingResponses s) InvList) s
  | MerkleBlockMsg m =>
      set_pendingResponses
        (pendingResponses s ∖ {[Uint256_String (Header_Hash (Header m))]}) s
  | Tx Transaction =>
      set_pendingResponses
        (pendingResponses s ∖ {[Uint256_String (Transaction_Hash Transaction)]})
        s
  | NotFound => Disconnect s
  | Reject | OtherMessage => s
  end.

(** [case <-stallTicker.C] *)
Definition on_stallTick (now : Time) (s : stall) : stall :=
  if Nat.eqb (size (pendingResponses s)) 0 then s
  else if Time_Before now (Time_Add (lastActive s) stallResponseTimeout) then s
  else Disconnect s.

(** One pass through the body of [for p.Connected() { select { ... } }]. *)
Definition iteration (e : event) (s : stall) : stall :=
  match e with
  | ctrMsg now message => on_ctrMsg now message s
  | stallTick now => on_stallTick now s
  end.

(** The loop, over the events that arrive; it leaves as soon as the peer is
    no longer connected, and what remains is drained. *)
Fixpoint stallHandler_loop (evs : list event) (s : stall) : stall :=
  match evs with
  | [] => s
  | e :: evs' =>
      if Connected s then stallHandler_loop evs' (iteration e s) else s
  end.

(** ** The session *)

Record SPVPeer := {
  Peer_connected : bool;
  downloading : downloadBlock;
  peer_downloadTx : downloadTx;
  receivedTxs : Z;
  fPositives : Z
}.

(** The handler as [NewSPVPeer] starts it: an empty [pendingResponses] and
    the zero [time.Time]. *)
Definition stallHandler_start (p : SPVPeer) : stall :=
  {| connected := Peer_connected p; pendingResponses := ∅; lastActive := 0 |}.

Definition stallHandler (evs : list event) (p : SPVPeer) : SPVPeer :=
  {| Peer_connected := Connected (stallHandler_loop evs (stallHandler_start p));
     downloading := downloading p;
     peer_downloadTx := peer_downloadTx p;
     receivedTxs := receivedTxs p;
     fPositives := fPositives p |}.

(** [p.downloading = newDownloadBlock()] *)
Definition ResetDownloading (p : SPVPeer) : SPVPeer :=
  {| Peer_connected := Peer_connected p;
     downloading := newDownloadBlock;
     peer_downloadTx := peer_downloadTx p;
     receivedTxs := receivedTxs p;
     fPositives := fPositives p |}.



(** The fields [NewSPVPeer] sets, for a [net.Peer] that is connected or
    not: two new trackers, and the zero value of the counters. *)
Definition NewSPVPeer (peer_connected : bool) : SPVPeer :=
  {| Peer_connected := peer_connected;
     downloading := newDownloadBlock;
     peer_downloadTx := newDownloadTx;
     receivedTxs := 0;
     fPositives := 0 |}.

(** ** Vocabulary of the statements *)

(** A request that leaves at least one expectation behind. *)
Definition expects_response (message : Message) : Prop :=
  match message with
  | GetBlocks => True
  | GetData InvList => InvList ≠ []
  | _ => False
  end.

(** The keys a request adds to [pendingResponses]. *)
Definition expected_keys (message : Message) : gset string :=
  match message with
  | GetBlocks => {[CmdInv]}
  | GetData InvList => add_expected ∅ InvList
  | _ => ∅
  end.

(** The key a response removes from [pendingResponses]. *)
Definition cleared_key (message : Message) : option string :=
  match message with
  | Inventory => Some CmdInv
  | MerkleBlockMsg m => Some (Uint256_String (Header_Hash (Header m)))
  | Tx Transaction => Some (Uint256_String (Transaction_Hash Transaction))
  | _ => None
  end.

(** Traffic that neither answers [request] nor is a not-found. *)
Definition unrelated_to (request message : Message) : Prop :=
  message ≠ NotFound ∧
  ∀ k, cleared_key message = Some k → k ∉ expected_keys request.


(** ** Message dispatch *)

(** The callbacks of [SPVPeerConfig] that [HandleMessage] may call. *)
Inductive handler := OnInventory | OnMerkleBlock | OnTx | OnNotFound | OnReject.

(** What a method of the session does, in order: a send on
    [p.stallControl], a call of a callback, or the [QueueMessage] of the
    embedded [net.Peer]. *)
Inductive action :=
| stallControl_send (message : Message)
| config_call (h : handler) (message : Message)
| Peer_QueueMessage (message : Message).

(** The [HandleMessage] that [NewSPVPeer] installs in the peer. *)
Definition HandleMessage (message : Message) : list action :=
  stallControl_send message ::
  match message with
  | Inventory => [config_call OnInventory message]
  | MerkleBlockMsg _ => [config_call OnMerkleBlock message]
  | Tx _ => [config_call OnTx message]
  | NotFound => [config_call OnNotFound message]
  | Reject => [config_call OnReject message]
  | _ => []
  end.

(** [p.stallControl <- message] *)
Definition StallMessage (message : Message) : list action :=
  [stallControl_send message].

(** [switch message.(type) { case *msg.GetBlocks, *msg.GetData:
      p.stallControl <- message }; p.Peer.QueueMessage(message, doneChan)] *)
Definition QueueMessage (message : Message) : list action :=
  match message with
  | GetBlocks | GetData _ => [stallControl_send message]
  | _ => []
  end ++ [Peer_QueueMessage message].

(** A call of the session: by the transport for a received message, or by
    the owner of the session. *)
Inductive call :=
| Received (message : Message)
| Queued (message : Message)
| Stalled (message : Message).

Definition perform (c : call) : list action :=
  match c with
  | Received message => HandleMessage message
  | Queued message => QueueMessage message
  | Stalled message => StallMessage message
  end.

(** The actions of a sequence of calls in program order, each call run to
    its end. *)
Definition actions (calls : list call) : list action := calls ≫= perform.

Definition sent_to_stallControl (a : action) : option Message :=
  match a with stallControl_send message => Some message | _ => None end.

Definition sent_to_Peer (a : action) : option Message :=
  match a with Peer_QueueMessage message => Some message | _ => None end.

(** What gets done of the [acts] of one goroutine, in order.  While the
    handler runs it receives every message, so every send on
    [p.stallControl] completes.  Once the handler has left, nothing
    receives from the channel: a send completes only into the one slot of
    the channel, and with the slot taken it blocks for ever, so that
    nothing after it is done.  [full] says whether the slot is taken. *)
Fixpoint completed (running full : bool) (acts : list action)
  : list action :=
  match acts with
  | [] => []
  | stallControl_send message :: acts' =>
      if running then stallControl_send message :: completed running full acts'
      else if full then []
      else stallControl_send message :: completed running true acts'
  | a :: acts' => a :: completed running full acts'
  end.

(** A session seen from the handler: a call whose sends on [p.stallControl]
    the handler receives at [now], or a tick of the ticker. *)
Inductive step :=
| session_call (now : Time) (c : call)
| ticker (now : Time).

Definition step_events (st : step) : list event :=
  match st with
  | session_call now c => ctrMsg now <$> omap sent_to_stallControl (perform c)
  | ticker now => [stallTick now]
  end.

Definition session_events (steps : list step) : list event :=
  steps ≫= step_events.

(** ** Further vocabulary *)

(** The callback for a kind of message, if it has one. *)
Definition handler_of (message : Message) : option handler :=
  match message with
  | Inventory => Some OnInventory
  | MerkleBlockMsg _ => Some OnMerkleBlock
  | Tx _ => Some OnTx
  | NotFound => Some OnNotFound
  | Reject => Some OnReject
  | _ => None
  end.

Definition is_request (message : Message) : bool :=
  match message with GetBlocks | GetData _ => true | _ => false end.

Definition is_NotFound (message : Message) : bool :=
  match message with NotFound => true | _ => false end.

Definition is_ctrMsg (e : event) : bool :=
  match e with ctrMsg _ _ => true | stallTick _ => false end.

(** The keys the requests among [evs] add. *)
Fixpoint requested_keys (evs : list event) : gset string :=
  match evs with
  | [] => ∅
  | ctrMsg _ message :: evs' => expected_keys message ∪ requested_keys evs'
  | stallTick _ :: evs' => requested_keys evs'
  end.

(** The keys a list of messages removes. *)
Definition cleared_keys (messages : list Message) : gset string :=
  list_to_set (omap cleared_key messages).

(** An event that cannot disconnect a peer whose last activity was at [t0]
    or later: a message other than not-found received at [t0] or later, or
    a tick before [t0 + stallResponseTimeout]. *)
Definition harmless (t0 : Time) (e : event) : Prop :=
  match e with
  | ctrMsg now message => t0 ≤ now ∧ message ≠ NotFound
  | stallTick now => now < t0 + stallResponseTimeout
  end.

(** An event of a session that has asked for nothing: a tick, or a message
    that is neither a request nor a not-found. *)
Definition unrequested (e : event) : Prop :=
  match e with
  | ctrMsg _ message => is_request message = false ∧ message ≠ NotFound
  | stallTick _ => True
  end.

(** Whether a tracker call names [txId], and the last call of a sequence
    that does. *)
Definition names (txId : Uint256) (o : trackerOp) : bool :=
  match o with Enqueue x | Dequeue x => bool_decide (x = txId) end.

Fixpoint last_call (txId : Uint256) (ops : list trackerOp)
  : option trackerOp :=
  match ops with
  | [] => None
  | o :: ops' =>
      match last_call txId ops' with
      | Some o' => Some o'
      | None => if names txId o then Some o else None
      end
  end.

(** The booleans the [dequeueTx] calls of a sequence return, in order. *)
Fixpoint downloadTx_results (d : downloadTx) (ops : list trackerOp)
  : list bool :=
  match ops with
  | [] => []
  | Enqueue txId :: ops' => downloadTx_results (downloadTx_queueTx d txId) ops'
  | Dequeue txId :: ops' =>
      snd (downloadTx_dequeueTx d txId)
      :: downloadTx_results (fst (downloadTx_dequeueTx d txId)) ops'
  end.

Fixpoint downloadBlock_results (d : downloadBlock) (ops : list trackerOp)
  : list bool :=
  match ops with
  | [] => []
  | Enqueue txId :: ops' =>
      downloadBlock_results (downloadBlock_enqueueTx d txId) ops'
  | Dequeue txId :: ops' =>
      snd (downloadBlock_dequeueTx d txId)
      :: downloadBlock_results (fst (downloadBlock_dequeueTx d txId)) ops'
  end.

Definition successes (results : list bool) : nat :=
  length (List.filter id results).

(** * Proofs *)

#[local] Set Default Proof Using "Type".

(** ** Set-level view of a call sequence *)

Lemma downloadTx_call_queue d o :
  queue (downloadTx_call d o) = set_call (queue d) o.
Proof.
  destruct o as [x|x]; simpl; [done|].
  unfold downloadTx_dequeueTx.
  case_bool_decide as Hin; simpl; [done|]. set_solver.
Qed.

Lemma downloadBlock_call_txQueue d o :
  txQueue (downloadBlock_call d o) = set_call (txQueue d) o.
Proof.
  destruct o as [x|x]; simpl; [done|].
  unfold downloadBlock_dequeueTx.
  case_bool_decide as Hin; simpl; [done|]. set_solver.
Qed.

Lemma downloadTx_run_queue ops :
  queue (downloadTx_run ops) = foldl set_call ∅ ops.
Proof.
  unfold downloadTx_run.
  induction ops as [|o ops IH] using rev_ind; [done|].
  by rewrite !foldl_app; simpl; rewrite downloadTx_call_queue, IH.
Qed.

Lemma downloadBlock_calls_txQueue d ops :
  txQueue (foldl downloadBlock_call d ops) = foldl set_call (txQueue d) ops.
Proof.
  induction ops as [|o ops IH] using rev_ind; [done|].
  by rewrite !foldl_app; simpl; rewrite downloadBlock_call_txQueue, IH.
Qed.

Lemma downloadBlock_run_txQueue ops :
  txQueue (downloadBlock_run ops) = foldl set_call ∅ ops.
Proof. apply downloadBlock_calls_txQueue. Qed.

Lemma enqueued_app ops1 ops2 :
  enqueued (ops1 ++ ops2) = enqueued ops1 ++ enqueued ops2.
Proof.
  induction ops1 as [|[x|x] ops1 IH]; simpl;
    [reflexivity|f_equal; exact IH|exact IH].
Qed.

Lemma dequeued_app ops1 ops2 :
  dequeued (ops1 ++ ops2) = dequeued ops1 ++ dequeued ops2.
Proof.
  induction ops1 as [|[x|x] ops1 IH]; simpl;
    [reflexivity|exact IH|f_equal; exact IH].
Qed.

Lemma dequeues_follow_enqueues_prefix ops o :
  dequeues_follow_enqueues (ops ++ [o]) → dequeues_follow_enqueues ops.
Proof.
  intros Hf pre x post ->. apply (Hf pre x (post ++ [o])).
  by rewrite <- app_assoc.
Qed.

Lemma dequeued_subset_enqueued ops :
  dequeues_follow_enqueues ops → dequeued ops ⊆ enqueued ops.
Proof using Uint256_eq.
  induction ops as [|o ops IH] using rev_ind; intros Hf; [done|].
  specialize (IH (dequeues_follow_enqueues_prefix _ _ Hf)).
  rewrite enqueued_app, dequeued_app.
  destruct o as [x|x]; simpl.
  - rewrite app_nil_r. set_solver.
  - rewrite app_nil_r. pose proof (Hf ops x [] eq_refl). set_solver.
Qed.

(** With distinct enqueues that precede their dequeues, the tracked set is
    what was enqueued less what was dequeued. *)
Lemma set_run_difference ops :
  NoDup (enqueued ops) → dequeues_follow_enqueues ops →
  foldl set_call ∅ ops
  = list_to_set (enqueued ops) ∖ list_to_set (dequeued ops).
Proof.
  induction ops as [|o ops IH] using rev_ind; intros Hnd Hf.
  { simpl. set_solver. }
  pose proof (dequeues_follow_enqueues_prefix _ _ Hf) as Hf'.
  rewrite enqueued_app in Hnd. apply NoDup_app in Hnd as (Hnd1 & Hfresh & _).
  rewrite foldl_app, enqueued_app, dequeued_app; simpl.
  rewrite (IH Hnd1 Hf'), !list_to_set_app_L.
  pose proof (dequeued_subset_enqueued _ Hf') as Hsub.
  destruct o as [x|x]; simpl.
  - assert (x ∉ enqueued ops) by (intros Hx; apply (Hfresh x Hx); set_solver).
    set_solver.
  - set_solver.
Qed.

Lemma set_run_size ops :
  NoDup (enqueued ops) → NoDup (dequeued ops) →
  dequeues_follow_enqueues ops →
  size (foldl set_call ∅ ops)
  = (length (enqueued ops) - length (dequeued ops))%nat.
Proof.
  intros Hne Hnd Hf. rewrite (set_run_difference _ Hne Hf).
  rewrite size_difference.
  - by rewrite !size_list_to_set.
  - pose proof (dequeued_subset_enqueued _ Hf). set_solver.
Qed.

(** Without any side condition, the tracked set stays within what was
    enqueued. *)
Lemma set_run_subset ops :
  foldl set_call ∅ ops ⊆ list_to_set (enqueued ops).
Proof.
  induction ops as [|o ops IH] using rev_ind; [set_solver|].
  rewrite foldl_app, enqueued_app, list_to_set_app_L.
  destruct o; simpl; set_solver.
Qed.

(** ** Download trackers *)

Lemma downloadBlock_finished_empty (d : downloadBlock) :
  downloadBlock_finished d = true ↔ txQueue d = ∅.
Proof.
  unfold downloadBlock_finished. rewrite Nat.eqb_eq.
  split; [intros Hs; apply leibniz_equiv, size_empty_inv, Hs|].
  intros ->. apply size_empty.
Qed.

Lemma set_run_enqueues (ids : list Uint256) :
  foldl set_call ∅ (map Enqueue ids) = list_to_set ids.
Proof.
  induction ids as [|x ids IH] using rev_ind; [done|].
  rewrite map_app, foldl_app, IH, list_to_set_app_L. simpl. set_solver.
Qed.

Lemma set_run_dequeues (q : gset Uint256) (ds : list Uint256) :
  foldl set_call q (map Dequeue ds) = q ∖ list_to_set ds.
Proof.
  induction ds as [|x ds IH] using rev_ind; [simpl; set_solver|].
  rewrite map_app, foldl_app, IH, list_to_set_app_L. simpl. set_solver.
Qed.

Lemma finished_after_dequeues (ids ds : list Uint256) :
  downloadBlock_finished
    (downloadBlock_run (map Enqueue ids ++ map Dequeue ds)) = true
  ↔ ids ⊆ ds.
Proof.
  rewrite downloadBlock_finished_empty, downloadBlock_run_txQueue.
  rewrite foldl_app, set_run_enqueues, set_run_dequeues.
  split.
  - intros Hempty x Hx. destruct (decide (x ∈ ds)) as [|Hn]; [done|].
    assert (x ∈ (list_to_set ids ∖ list_to_set ds : gset Uint256)) as Hin
      by set_solver.
    rewrite Hempty in Hin. set_solver.
  - intros Hsub. set_solver.
Qed.

Lemma downloadTx_dequeueTx_absent (d : downloadTx) txId :
  txId ∉ queue d → downloadTx_dequeueTx d txId = (d, false).
Proof. intros Hn. unfold downloadTx_dequeueTx. by case_bool_decide. Qed.

Lemma downloadBlock_dequeueTx_absent (d : downloadBlock) txId :
  txId ∉ txQueue d → downloadBlock_dequeueTx d txId = (d, false).
Proof. intros Hn. unfold downloadBlock_dequeueTx. by case_bool_decide. Qed.

(** C8: on either download tracker, [dequeueTx] of an identifier that is
    present returns [true] and removes exactly it; [dequeueTx] of an
    identifier that is absent returns [false] and leaves the tracker as it
    was.  The call always returns a tracker and a boolean: a miss is a
    value, not a failure. *)
Theorem dequeueTx_reports_presence (txId : Uint256) :
  (∀ d : downloadTx,
     (txId ∈ queue d →
      snd (downloadTx_dequeueTx d txId) = true ∧
      queue (fst (downloadTx_dequeueTx d txId)) = queue d ∖ {[txId]}) ∧
     (txId ∉ queue d → downloadTx_dequeueTx d txId = (d, false))) ∧
  (∀ d : downloadBlock,
     (txId ∈ txQueue d →
      snd (downloadBlock_dequeueTx d txId) = true ∧
      txQueue (fst (downloadBlock_dequeueTx d txId)) = txQueue d ∖ {[txId]} ∧
      MerkleBlock (fst (downloadBlock_dequeueTx d txId)) = MerkleBlock d ∧
      txs (fst (downloadBlock_dequeueTx d txId)) = txs d) ∧
     (txId ∉ txQueue d → downloadBlock_dequeueTx d txId = (d, false))).
Proof.
  split; intros d; unfold downloadTx_dequeueTx, downloadBlock_dequeueTx;
    case_bool_decide; simpl; naive_solver.
Qed.

(** C6: [finished()] is true exactly when the expected set is empty.  For a
    tracker whose set holds [K] distinct identifiers, and any order [ds] in
    which they are dequeued, [finished()] after the first [n] dequeues is
    true exactly when [n] has reached [K]. *)
Theorem finished_iff_all_dequeued
    (d : downloadBlock) (ds : list Uint256) (n : nat) :
  NoDup ds → list_to_set ds = txQueue d →
  (∀ d', downloadBlock_finished d' = true ↔ txQueue d' = ∅) ∧
  length ds = size (txQueue d) ∧
  downloadBlock_finished
    (foldl downloadBlock_call d (map Dequeue (take n ds)))
  = bool_decide (size (txQueue d) ≤ n)%nat.
Proof.
  intros Hnd Hds. split; [apply downloadBlock_finished_empty|].
  assert (length ds = size (txQueue d)) as Hlen
    by (by rewrite <- Hds, size_list_to_set).
  split; [done|]. rewrite <- Hlen.
  case_bool_decide as Hn.
  - apply downloadBlock_finished_empty.
    rewrite downloadBlock_calls_txQueue, set_run_dequeues, take_ge by done.
    set_solver.
  - apply not_true_is_false. rewrite downloadBlock_finished_empty.
    rewrite downloadBlock_calls_txQueue, set_run_dequeues. intros Hempty.
    destruct (lookup_lt_is_Some_2 ds n) as [x Hx]; [lia|].
    assert (x ∈ drop n ds) as Hdrop.
    { apply list_elem_of_lookup. exists 0%nat.
      by rewrite lookup_drop, Nat.add_0_r. }
    rewrite <- (take_drop n ds) in Hnd.
    apply NoDup_app in Hnd as (_ & Hfresh & _).
    assert (x ∈ txQueue d ∖ list_to_set (take n ds)) as Hin.
    { rewrite <- Hds, <- (take_drop n ds) at 1.
      rewrite list_to_set_app_L. specialize (Hfresh x). set_solver. }
    rewrite Hempty in Hin. set_solver.
Qed.

(** C7, amended: after [N] enqueues of distinct identifiers and [M]
    dequeues of distinct identifiers, each enqueued before it is dequeued,
    either tracker holds [N - M] identifiers (and [M ≤ N]).  After any
    sequence of calls, dequeueing an identifier that was never enqueued
    returns [false] and leaves the tracker, hence its size, as it was. *)
Theorem tracker_size_after_calls (ops : list trackerOp) :
  (NoDup (enqueued ops) → NoDup (dequeued ops) →
   dequeues_follow_enqueues ops →
   (length (dequeued ops) ≤ length (enqueued ops))%nat ∧
   size (queue (downloadTx_run ops))
   = (length (enqueued ops) - length (dequeued ops))%nat ∧
   size (txQueue (downloadBlock_run ops))
   = (length (enqueued ops) - length (dequeued ops))%nat) ∧
  (∀ txId, txId ∉ enqueued ops →
   downloadTx_dequeueTx (downloadTx_run ops) txId
   = (downloadTx_run ops, false) ∧
   downloadBlock_dequeueTx (downloadBlock_run ops) txId
   = (downloadBlock_run ops, false)).
Proof.
  split.
  - intros Hne Hnd Hf. split; [|split].
    + apply submseteq_length, NoDup_submseteq; [done|].
      apply dequeued_subset_enqueued, Hf.
    + rewrite downloadTx_run_queue. by apply set_run_size.
    + rewrite downloadBlock_run_txQueue. by apply set_run_size.
  - intros x Hx. pose proof (set_run_subset ops) as Hsub.
    split; [apply downloadTx_dequeueTx_absent|
            apply downloadBlock_dequeueTx_absent].
    + rewrite downloadTx_run_queue. set_solver.
    + rewrite downloadBlock_run_txQueue. set_solver.
Qed.

(** C10: a tracker as [newDownloadBlock] makes it, and so the tracker every
    [ResetDownloading] installs, holds no merkle block and no identifier and
    reports [finished() = true]: the same answer as a tracker whose expected
    identifiers were all enqueued and then all dequeued. *)
Theorem fresh_tracker_is_finished (p : SPVPeer) (ids : list Uint256) :
  downloadBlock_finished newDownloadBlock = true ∧
  downloading (ResetDownloading p) = newDownloadBlock ∧
  downloadBlock_finished (downloading (ResetDownloading p)) = true ∧
  MerkleBlock (downloading (ResetDownloading p)) = None ∧
  downloadBlock_finished
    (downloadBlock_run (map Enqueue ids ++ map Dequeue ids))
  = downloadBlock_finished newDownloadBlock.
Proof.
  assert (downloadBlock_finished newDownloadBlock = true) as Hnew
    by (by apply downloadBlock_finished_empty).
  repeat split; try done.
  rewrite Hnew. by apply finished_after_dequeues.
Qed.

(** ** Stall detector *)

Lemma elem_of_add_expected k p InvList :
  k ∈ add_expected p InvList
  ↔ k ∈ p ∨ ∃ iv, iv ∈ InvList ∧ k = Uint256_String (InvVect_Hash iv).
Proof.
  unfold add_expected. revert p.
  induction InvList as [|iv l IH]; intros p; simpl; [set_solver|].
  rewrite IH. set_solver.
Qed.

Lemma add_expected_union p InvList :
  add_expected p InvList
  = p ∪ list_to_set ((λ iv, Uint256_String (InvVect_Hash iv)) <$> InvList).
Proof.
  apply set_eq. intros k.
  rewrite elem_of_add_expected, elem_of_union, elem_of_list_to_set,
    list_elem_of_fmap.
  naive_solver.
Qed.

Lemma on_ctrMsg_lastActive now message s :
  lastActive (on_ctrMsg now message s) = now.
Proof. by destruct message. Qed.

Lemma on_ctrMsg_Connected now message s :
  message ≠ NotFound → Connected (on_ctrMsg now message s) = Connected s.
Proof. by destruct message. Qed.

Lemma on_ctrMsg_request now message s :
  expected_keys message ⊆ pendingResponses (on_ctrMsg now message s).
Proof.
  destruct message as [| |l| | | | |]; simpl;
    [set_solver|apply empty_subseteq| |apply empty_subseteq ..].
  intros k. rewrite !elem_of_add_expected.
  intros [Hk|Hk]; [by apply not_elem_of_empty in Hk|by right].
Qed.

Lemma expected_keys_non_empty message :
  expects_response message → expected_keys message ≠ ∅.
Proof.
  destruct message as [| |l| | | | |]; simpl; try done.
  intros Hl. destruct l as [|iv l]; [done|].
  assert (Uint256_String (InvVect_Hash iv) ∈ add_expected ∅ (iv :: l)) as Hin
    by (apply elem_of_add_expected; right; exists iv; set_solver).
  set_solver.
Qed.

Lemma expects_response_not_NotFound message :
  expects_response message → message ≠ NotFound.
Proof. by destruct message. Qed.

Lemma on_ctrMsg_unrelated now request message s :
  unrelated_to request message →
  expected_keys request ⊆ pendingResponses s →
  expected_keys request ⊆ pendingResponses (on_ctrMsg now message s).
Proof.
  intros [Hnf Hkey] Hsub. destruct message; simpl in *; try done.
  - set_solver.
  - specialize (Hkey _ eq_refl). set_solver.
  - intros k Hk. apply elem_of_add_expected. left. by apply Hsub.
  - specialize (Hkey _ eq_refl). set_solver.
  - specialize (Hkey _ eq_refl). set_solver.
Qed.

Lemma on_stallTick_idle now s :
  pendingResponses s = ∅ → on_stallTick now s = s.
Proof. intros Hp. unfold on_stallTick. by rewrite Hp, size_empty. Qed.

Lemma on_stallTick_early now s :
  now < lastActive s + stallResponseTimeout → on_stallTick now s = s.
Proof.
  intros Hlt. unfold on_stallTick, Time_Before, Time_Add.
  destruct (Nat.eqb _ _); [done|].
  by rewrite (proj2 (Z.ltb_lt _ _) Hlt).
Qed.

Lemma on_stallTick_late now s :
  pendingResponses s ≠ ∅ → lastActive s + stallResponseTimeout ≤ now →
  on_stallTick now s = Disconnect s.
Proof.
  intros Hp Hle. unfold on_stallTick, Time_Before, Time_Add.
  destruct (Nat.eqb_spec (size (pendingResponses s)) 0) as [Hs|_].
  - destruct Hp. by apply leibniz_equiv, size_empty_inv.
  - by rewrite (proj2 (Z.ltb_ge _ _) Hle).
Qed.

Lemma stallHandler_loop_disconnected evs s :
  Connected s = false → stallHandler_loop evs s = s.
Proof. intros Hc. destruct evs; simpl; [done|]. by rewrite Hc. Qed.

Lemma stallHandler_loop_app evs1 evs2 s :
  stallHandler_loop (evs1 ++ evs2) s
  = stallHandler_loop evs2 (stallHandler_loop evs1 s).
Proof.
  revert s. induction evs1 as [|e evs1 IH]; intros s; simpl; [done|].
  destruct (Connected s) eqn:Hc; [apply IH|].
  by rewrite stallHandler_loop_disconnected.
Qed.

Lemma stallHandler_loop_early_ticks ts s :
  Forall (λ t, t < lastActive s + stallResponseTimeout) ts →
  stallHandler_loop (map stallTick ts) s = s.
Proof.
  induction 1 as [|t ts Ht _ IH]; simpl; [done|].
  destruct (Connected s); [|done]. by rewrite on_stallTick_early.
Qed.

Lemma stallHandler_loop_idle_ticks ts s :
  pendingResponses s = ∅ → stallHandler_loop (map stallTick ts) s = s.
Proof.
  intros Hp. induction ts as [|t ts IH]; simpl; [done|].
  destruct (Connected s); [|done]. by rewrite on_stallTick_idle.
Qed.

(** C1: after a request that records an expectation at time [T], with no
    further message on the stall-control channel, a tick before
    [T + stallResponseTimeout] leaves the peer connected and a tick after
    [T + stallResponseTimeout] disconnects it; ticks that fired earlier,
    before the deadline, change nothing. *)
Theorem stall_timeout_boundary s request (T t : Time) (ts : list Time) :
  Connected s = true → expects_response request →
  Forall (λ t', t' < T + stallResponseTimeout) ts →
  let evs := ctrMsg T request :: map stallTick ts ++ [stallTick t] in
  (t < T + stallResponseTimeout →
   Connected (stallHandler_loop evs s) = true) ∧
  (T + stallResponseTimeout < t →
   Connected (stallHandler_loop evs s) = false).
Proof.
  intros Hc Hreq Hts evs. subst evs. simpl. rewrite Hc.
  pose proof (on_ctrMsg_lastActive T request s) as Hla.
  pose proof (on_ctrMsg_Connected T request s
                (expects_response_not_NotFound _ Hreq)) as Hc1.
  rewrite Hc in Hc1.
  rewrite stallHandler_loop_app, stallHandler_loop_early_ticks
    by (by rewrite Hla).
  simpl. rewrite Hc1. split; intros Ht.
  - by rewrite on_stallTick_early by (rewrite Hla; lia).
  - rewrite on_stallTick_late; [done| |rewrite Hla; lia].
    pose proof (expected_keys_non_empty _ Hreq) as Hne.
    pose proof (on_ctrMsg_request T request s) as Hsub. set_solver.
Qed.

(** C2: an iteration that receives a not-found message leaves the peer
    disconnected, whatever [pendingResponses] and [lastActive] hold and
    whatever the time; the loop does not run another iteration after it. *)
Theorem NotFound_disconnects s (now : Time) (rest : list event) :
  Connected (iteration (ctrMsg now NotFound) s) = false ∧
  Connected (stallHandler_loop (ctrMsg now NotFound :: rest) s) = false ∧
  pendingResponses (iteration (ctrMsg now NotFound) s) = pendingResponses s.
Proof.
  split; [done|]. split; [|done]. simpl.
  destruct (Connected s) eqn:Hc; [|done].
  by rewrite stallHandler_loop_disconnected.
Qed.

(** C3: with [pendingResponses] empty, a tick leaves the state as it is, in
    particular the peer connected, at any time and for any [lastActive]; so
    does any run of ticks. *)
Theorem tick_without_pending_is_noop s (now : Time) (ts : list Time) :
  pendingResponses s = ∅ →
  iteration (stallTick now) s = s ∧
  stallHandler_loop (map stallTick ts) s = s ∧
  Connected (iteration (stallTick now) s) = Connected s.
Proof.
  intros Hp. simpl. rewrite on_stallTick_idle by done.
  by rewrite stallHandler_loop_idle_ticks.
Qed.

(** C4: every message on the stall-control channel sets [lastActive] to
    the time of its iteration.  So after a request at [T0] and unrelated
    traffic at [T0 + stallResponseTimeout / 2], a tick at any [t1] before
    [T0 + stallResponseTimeout / 2 + stallResponseTimeout] (just after
    [T0 + stallResponseTimeout], say) leaves the peer connected, and, with
    no further traffic, a tick at any [t2] from that instant on
    disconnects it. *)
Theorem traffic_refreshes_lastActive s request message (T0 t1 t2 : Time) :
  Connected s = true → expects_response request →
  unrelated_to request message →
  let T1 := T0 + stallResponseTimeout / 2 in
  t1 < T1 + stallResponseTimeout → T1 + stallResponseTimeout ≤ t2 →
  (∀ now m s', lastActive (iteration (ctrMsg now m) s') = now) ∧
  Connected (stallHandler_loop
               [ctrMsg T0 request; ctrMsg T1 message; stallTick t1] s) = true ∧
  Connected (stallHandler_loop
               [ctrMsg T0 request; ctrMsg T1 message; stallTick t1;
                stallTick t2] s) = false.
Proof.
  intros Hc Hreq Hun T1 Ht1 Ht2.
  split; [intros; apply on_ctrMsg_lastActive|].
  simpl. rewrite Hc.
  set (s1 := on_ctrMsg T0 request s).
  assert (Connected s1 = true) as Hc1.
  { unfold s1. rewrite on_ctrMsg_Connected; [done|].
    by apply expects_response_not_NotFound. }
  rewrite Hc1. set (s2 := on_ctrMsg T1 message s1).
  assert (Connected s2 = true) as Hc2.
  { unfold s2. rewrite on_ctrMsg_Connected; [done|]. apply Hun. }
  assert (lastActive s2 = T1) as Hla by apply on_ctrMsg_lastActive.
  assert (pendingResponses s2 ≠ ∅) as Hp.
  { pose proof (expected_keys_non_empty _ Hreq) as Hne.
    pose proof (on_ctrMsg_unrelated T1 request message s1 Hun
                  (on_ctrMsg_request T0 request s)) as Hsub.
    fold s2 in Hsub. set_solver. }
  rewrite Hc2, on_stallTick_early by (rewrite Hla; lia).
  split; [done|]. rewrite Hc2.
  by rewrite on_stallTick_late by (done || rewrite Hla; lia).
Qed.

(** C5: a merkle-block message removes from [pendingResponses] the key of
    its own header's hash, a transaction message the key of its own
    transaction's hash, whatever was requested before; a get-data request
    adds the key of every inventory hash it lists. *)
Theorem responses_clear_their_own_hash s (now : Time) :
  (∀ m, pendingResponses (iteration (ctrMsg now (MerkleBlockMsg m)) s)
        = pendingResponses s ∖ {[Uint256_String (Header_Hash (Header m))]}) ∧
  (∀ tx, pendingResponses (iteration (ctrMsg now (Tx tx)) s)
         = pendingResponses s ∖ {[Uint256_String (Transaction_Hash tx)]}) ∧
  (∀ InvList,
     pendingResponses (iteration (ctrMsg now (GetData InvList)) s)
     = pendingResponses s
       ∪ list_to_set ((λ iv, Uint256_String (InvVect_Hash iv)) <$> InvList)).
Proof.
  split; [done|]. split; [done|]. intros l. simpl. apply add_expected_union.
Qed.

(** ** False-positive rate *)




























(** * Further properties *)

(** ** Download trackers *)

Lemma downloadBlock_call_MerkleBlock d o :
  MerkleBlock (downloadBlock_call d o) = MerkleBlock d.
Proof.
  destruct o as [x|x]; simpl; [done|].
  unfold downloadBlock_dequeueTx. by case_bool_decide.
Qed.

Lemma downloadBlock_call_txs d o :
  txs (downloadBlock_call d o) = txs d.
Proof.
  destruct o as [x|x]; simpl; [done|].
  unfold downloadBlock_dequeueTx. by case_bool_decide.
Qed.

Lemma downloadTx_calls_queue d ops :
  queue (foldl downloadTx_call d ops) = foldl set_call (queue d) ops.
Proof.
  induction ops as [|o ops IH] using rev_ind; [done|].
  by rewrite !foldl_app; simpl; rewrite downloadTx_call_queue, IH.
Qed.

Lemma set_run_last_call (q : gset Uint256) ops txId :
  txId ∈ foldl set_call q ops
  ↔ match last_call txId ops with
    | Some (Enqueue _) => True
    | Some (Dequeue _) => False
    | None => txId ∈ q
    end.
Proof.
  revert q. induction ops as [|o ops IH]; intros q; simpl; [done|].
  rewrite IH. destruct (last_call txId ops) as [[?|?]|]; [done|done|].
  destruct o as [x|x]; simpl; case_bool_decide; subst; set_solver.
Qed.

(** X1: whether an identifier is tracked after a sequence of calls depends
    only on the calls that name it: it is tracked exactly when the last of
    them is an enqueue, or, when none names it, when it was tracked
    before. *)
Theorem tracked_iff_last_call_enqueues
    (d : downloadTx) (b : downloadBlock) (ops : list trackerOp)
    (txId : Uint256) :
  (txId ∈ queue (foldl downloadTx_call d ops)
   ↔ match last_call txId ops with
     | Some (Enqueue _) => True
     | Some (Dequeue _) => False
     | None => txId ∈ queue d
     end) ∧
  (txId ∈ txQueue (foldl downloadBlock_call b ops)
   ↔ match last_call txId ops with
     | Some (Enqueue _) => True
     | Some (Dequeue _) => False
     | None => txId ∈ txQueue b
     end).
Proof.
  rewrite downloadTx_calls_queue, downloadBlock_calls_txQueue.
  split; apply set_run_last_call.
Qed.

(** X2: enqueueing an identifier that is not tracked and dequeueing it
    again returns [true] and gives back the tracker as it was; dequeueing
    an identifier that is tracked and enqueueing it again does too. *)
Theorem enqueue_dequeue_round_trip
    (d : downloadTx) (b : downloadBlock) (txId : Uint256) :
  (txId ∉ queue d →
   downloadTx_dequeueTx (downloadTx_queueTx d txId) txId = (d, true)) ∧
  (txId ∉ txQueue b →
   downloadBlock_dequeueTx (downloadBlock_enqueueTx b txId) txId
   = (b, true)) ∧
  (txId ∈ queue d →
   downloadTx_queueTx (fst (downloadTx_dequeueTx d txId)) txId = d) ∧
  (txId ∈ txQueue b →
   downloadBlock_enqueueTx (fst (downloadBlock_dequeueTx b txId)) txId = b).
Proof.
  destruct d as [q], b as [mb q' l].
  unfold downloadTx_dequeueTx, downloadBlock_dequeueTx,
    downloadTx_queueTx, downloadBlock_enqueueTx; simpl.
  split; [|split; [|split]]; intros Hin.
  - rewrite bool_decide_eq_true_2 by set_solver. simpl.
    do 2 f_equal. set_solver.
  - rewrite bool_decide_eq_true_2 by set_solver. simpl.
    do 2 f_equal. set_solver.
  - rewrite bool_decide_eq_true_2 by done. simpl. f_equal.
    apply set_eq. intros x. destruct (decide (x = txId)); set_solver.
  - rewrite bool_decide_eq_true_2 by done. simpl. f_equal.
    apply set_eq. intros x. destruct (decide (x = txId)); set_solver.
Qed.

(** X3: repeating a call changes nothing: a second [dequeueTx] of the same
    identifier returns [false] and leaves the tracker as the first left it,
    and a second enqueue of the same identifier leaves the tracker as the
    first left it. *)
Theorem repeated_call_is_noop
    (d : downloadTx) (b : downloadBlock) (txId : Uint256) :
  downloadTx_dequeueTx (fst (downloadTx_dequeueTx d txId)) txId
  = (fst (downloadTx_dequeueTx d txId), false) ∧
  downloadBlock_dequeueTx (fst (downloadBlock_dequeueTx b txId)) txId
  = (fst (downloadBlock_dequeueTx b txId), false) ∧
  downloadTx_queueTx (downloadTx_queueTx d txId) txId
  = downloadTx_queueTx d txId ∧
  downloadBlock_enqueueTx (downloadBlock_enqueueTx b txId) txId
  = downloadBlock_enqueueTx b txId.
Proof.
  split; [|split; [|split]].
  - apply downloadTx_dequeueTx_absent. unfold downloadTx_dequeueTx.
    case_bool_decide; simpl; set_solver.
  - apply downloadBlock_dequeueTx_absent. unfold downloadBlock_dequeueTx.
    case_bool_decide; simpl; set_solver.
  - unfold downloadTx_queueTx; simpl. f_equal. set_solver.
  - unfold downloadBlock_enqueueTx; simpl. f_equal. set_solver.
Qed.

(** X4: calls on different identifiers do not interfere: a call that does
    not name [txId] leaves the answer of [dequeueTx] for [txId] as it was,
    and two calls that name different identifiers give the same tracker in
    either order. *)
Theorem calls_on_other_identifiers_commute
    (d : downloadTx) (b : downloadBlock) (o1 o2 : trackerOp)
    (txId : Uint256) :
  names txId o1 = false →
  (names txId o2 = true →
   downloadTx_call (downloadTx_call d o1) o2
   = downloadTx_call (downloadTx_call d o2) o1 ∧
   downloadBlock_call (downloadBlock_call b o1) o2
   = downloadBlock_call (downloadBlock_call b o2) o1) ∧
  snd (downloadTx_dequeueTx (downloadTx_call d o1) txId)
  = snd (downloadTx_dequeueTx d txId) ∧
  snd (downloadBlock_dequeueTx (downloadBlock_call b o1) txId)
  = snd (downloadBlock_dequeueTx b txId).
Proof.
  intros Hn1.
  assert (∀ q : gset Uint256, txId ∈ set_call q o1 ↔ txId ∈ q) as Hsame.
  { intros q. destruct o1 as [x|x]; simpl in *;
      apply bool_decide_eq_false in Hn1; set_solver. }
  split; [|split].
  - intros Hn2.
    assert (∀ q : gset Uint256,
              set_call (set_call q o1) o2 = set_call (set_call q o2) o1)
      as Hcomm.
    { intros q. destruct o1 as [x|x], o2 as [y|y]; simpl in *;
        apply bool_decide_eq_false in Hn1;
        apply bool_decide_eq_true in Hn2; subst; set_solver. }
    split.
    + destruct (downloadTx_call (downloadTx_call d o1) o2) as [q1] eqn:E1.
      destruct (downloadTx_call (downloadTx_call d o2) o1) as [q2] eqn:E2.
      f_equal.
      apply (f_equal queue) in E1, E2. simpl in E1, E2.
      rewrite !downloadTx_call_queue in E1, E2. by rewrite <- E1, <- E2.
    + destruct (downloadBlock_call (downloadBlock_call b o1) o2)
        as [m1 q1 l1] eqn:E1.
      destruct (downloadBlock_call (downloadBlock_call b o2) o1)
        as [m2 q2 l2] eqn:E2.
      pose proof (f_equal txQueue E1) as Hq1.
      pose proof (f_equal txQueue E2) as Hq2.
      pose proof (f_equal MerkleBlock E1) as Hm1.
      pose proof (f_equal MerkleBlock E2) as Hm2.
      pose proof (f_equal txs E1) as Hl1.
      pose proof (f_equal txs E2) as Hl2.
      simpl in *.
      rewrite !downloadBlock_call_txQueue in Hq1, Hq2.
      rewrite !downloadBlock_call_MerkleBlock in Hm1, Hm2.
      rewrite !downloadBlock_call_txs in Hl1, Hl2.
      congruence.
  - unfold downloadTx_dequeueTx.
    rewrite downloadTx_call_queue.
    do 2 case_bool_decide; simpl; try done; exfalso; naive_solver.
  - unfold downloadBlock_dequeueTx.
    rewrite downloadBlock_call_txQueue.
    do 2 case_bool_decide; simpl; try done; exfalso; naive_solver.
Qed.

Lemma size_set_call_enqueue (q : gset Uint256) x :
  (size (set_call q (Enqueue x)) ≤ S (size q))%nat.
Proof.
  simpl. rewrite size_union_alt, size_singleton.
  assert (q ∖ {[x]} ⊆ q) as Hsub by set_solver.
  pose proof (subseteq_size _ _ Hsub). lia.
Qed.

Lemma size_set_call_dequeue (q : gset Uint256) x :
  x ∈ q → S (size (set_call q (Dequeue x))) = size q.
Proof.
  intros Hx. simpl. rewrite size_difference by set_solver.
  rewrite size_singleton.
  assert (size q ≠ 0%nat); [|lia].
  intros Hz. apply size_empty_inv in Hz. set_solver.
Qed.

Lemma successes_cons b l :
  successes (b :: l) = ((if b then 1 else 0) + successes l)%nat.
Proof. unfold successes. by destruct b. Qed.

Lemma downloadTx_accounting d ops :
  (size (queue (foldl downloadTx_call d ops))
   + successes (downloadTx_results d ops)
   ≤ size (queue d) + length (enqueued ops))%nat.
Proof.
  revert d. induction ops as [|[x|x] ops IH]; intros d; simpl.
  - unfold successes. simpl. lia.
  - specialize (IH (downloadTx_queueTx d x)).
    pose proof (size_set_call_enqueue (queue d) x). simpl in *. lia.
  - specialize (IH (fst (downloadTx_dequeueTx d x))).
    rewrite successes_cons. revert IH. unfold downloadTx_dequeueTx.
    case_bool_decide as Hx; simpl; [|lia].
    pose proof (size_set_call_dequeue (queue d) x Hx). simpl in *. lia.
Qed.

Lemma downloadBlock_accounting d ops :
  (size (txQueue (foldl downloadBlock_call d ops))
   + successes (downloadBlock_results d ops)
   ≤ size (txQueue d) + length (enqueued ops))%nat.
Proof.
  revert d. induction ops as [|[x|x] ops IH]; intros d; simpl.
  - unfold successes. simpl. lia.
  - specialize (IH (downloadBlock_enqueueTx d x)).
    pose proof (size_set_call_enqueue (txQueue d) x). simpl in *. lia.
  - specialize (IH (fst (downloadBlock_dequeueTx d x))).
    rewrite successes_cons. revert IH. unfold downloadBlock_dequeueTx.
    case_bool_decide as Hx; simpl; [|lia].
    pose proof (size_set_call_dequeue (txQueue d) x Hx). simpl in *. lia.
Qed.

(** X5: in any sequence of calls on either tracker, the identifiers still
    tracked plus the dequeues that returned [true] are never more than the
    identifiers tracked at the start plus the enqueues; from a new tracker,
    no more dequeues succeed than enqueues were made. *)
Theorem successful_dequeues_bounded
    (d : downloadTx) (b : downloadBlock) (ops : list trackerOp) :
  (size (queue (foldl downloadTx_call d ops))
   + successes (downloadTx_results d ops)
   ≤ size (queue d) + length (enqueued ops))%nat ∧
  (size (txQueue (foldl downloadBlock_call b ops))
   + successes (downloadBlock_results b ops)
   ≤ size (txQueue b) + length (enqueued ops))%nat ∧
  (successes (downloadTx_results newDownloadTx ops)
   ≤ length (enqueued ops))%nat ∧
  (successes (downloadBlock_results newDownloadBlock ops)
   ≤ length (enqueued ops))%nat.
Proof.
  split; [apply downloadTx_accounting|].
  split; [apply downloadBlock_accounting|].
  pose proof (downloadTx_accounting newDownloadTx ops) as Htx.
  pose proof (downloadBlock_accounting newDownloadBlock ops) as Hblock.
  assert (size (queue newDownloadTx) = 0%nat) as Hq by apply size_empty.
  assert (size (txQueue newDownloadBlock) = 0%nat) as Hq' by apply size_empty.
  lia.
Qed.

(** X6: no sequence of [enqueueTx] and [dequeueTx] calls on a
    [downloadBlock] touches its merkle block or its list of transactions,
    and the same calls on a [downloadTx] that starts with the same
    identifiers track the same identifiers and return the same booleans. *)
Theorem downloadBlock_calls_frame
    (b : downloadBlock) (d : downloadTx) (ops : list trackerOp) :
  queue d = txQueue b →
  MerkleBlock (foldl downloadBlock_call b ops) = MerkleBlock b ∧
  txs (foldl downloadBlock_call b ops) = txs b ∧
  txQueue (foldl downloadBlock_call b ops)
  = queue (foldl downloadTx_call d ops) ∧
  downloadBlock_results b ops = downloadTx_results d ops.
Proof.
  intros Hq. split; [|split; [|split]].
  - induction ops as [|o ops IH] using rev_ind; [done|].
    by rewrite foldl_app; simpl; rewrite downloadBlock_call_MerkleBlock.
  - induction ops as [|o ops IH] using rev_ind; [done|].
    by rewrite foldl_app; simpl; rewrite downloadBlock_call_txs.
  - by rewrite downloadBlock_calls_txQueue, downloadTx_calls_queue, Hq.
  - revert b d Hq. induction ops as [|[x|x] ops IH]; intros b d Hq; simpl.
    + done.
    + apply IH. simpl. by rewrite Hq.
    + assert (queue (fst (downloadTx_dequeueTx d x))
              = txQueue (fst (downloadBlock_dequeueTx b x))) as Hq'.
      { pose proof (downloadTx_call_queue d (Dequeue x)) as H1.
        pose proof (downloadBlock_call_txQueue b (Dequeue x)) as H2.
        simpl in H1, H2. by rewrite H1, H2, Hq. }
      rewrite (IH _ _ Hq'). f_equal.
      unfold downloadTx_dequeueTx, downloadBlock_dequeueTx. rewrite Hq.
      by case_bool_decide.
Qed.

(** ** Stall detector *)

Lemma on_stallTick_cases now s :
  on_stallTick now s = s ∨ on_stallTick now s = Disconnect s.
Proof.
  unfold on_stallTick. destruct (Nat.eqb _ _); [by left|].
  destruct (Time_Before _ _); [by left|by right].
Qed.

(** X7: for a connected peer, a tick disconnects exactly when something is
    pending and the time is [lastActive + stallResponseTimeout] or later,
    that instant included; a tick never changes [pendingResponses] or
    [lastActive]. *)
Theorem tick_disconnects_iff s (now : Time) :
  Connected s = true →
  (Connected (iteration (stallTick now) s) = false
   ↔ pendingResponses s ≠ ∅ ∧ lastActive s + stallResponseTimeout ≤ now) ∧
  pendingResponses (iteration (stallTick now) s) = pendingResponses s ∧
  lastActive (iteration (stallTick now) s) = lastActive s.
Proof.
  intros Hc. simpl. split.
  - destruct (decide (pendingResponses s = ∅)) as [Hp|Hp].
    { rewrite on_stallTick_idle by done. rewrite Hc. naive_solver. }
    destruct (Z_lt_le_dec now (lastActive s + stallResponseTimeout))
      as [Hlt|Hle].
    + rewrite on_stallTick_early by done. rewrite Hc.
      split; [done|]. intros [_ Hle]. lia.
    + rewrite on_stallTick_late by done. done.
  - by destruct (on_stallTick_cases now s) as [-> | ->].
Qed.

(** X8: a disconnect ends the handler: whatever arrives after the
    iteration that disconnected the peer changes neither the handler's
    state nor the peer, which stays disconnected. *)
Theorem disconnect_is_final s p (evs1 evs2 : list event) :
  (Connected (stallHandler_loop evs1 s) = false →
   stallHandler_loop (evs1 ++ evs2) s = stallHandler_loop evs1 s) ∧
  (Peer_connected (stallHandler evs1 p) = false →
   stallHandler (evs1 ++ evs2) p = stallHandler evs1 p).
Proof.
  assert (∀ s', Connected (stallHandler_loop evs1 s') = false →
                stallHandler_loop (evs1 ++ evs2) s'
                = stallHandler_loop evs1 s') as Hfinal.
  { intros s' Hc.
    by rewrite stallHandler_loop_app, stallHandler_loop_disconnected. }
  split; [apply Hfinal|].
  unfold stallHandler; simpl. intros Hc. by rewrite Hfinal.
Qed.

(** X9: ticks leave no trace on a peer that stays connected: the final
    state of the handler is the one the control messages alone give. *)
Theorem ticks_leave_no_trace s (evs : list event) :
  Connected (stallHandler_loop evs s) = true →
  stallHandler_loop evs s = stallHandler_loop (List.filter is_ctrMsg evs) s.
Proof.
  revert s. induction evs as [|e evs IH]; intros s Hc; [done|].
  destruct (Connected s) eqn:Hs.
  2:{ by rewrite !stallHandler_loop_disconnected. }
  destruct e as [now message|now]; simpl in *; rewrite Hs in *.
  - by apply IH.
  - destruct (on_stallTick_cases now s) as [Heq|Heq]; rewrite Heq in *.
    + by apply IH.
    + by rewrite stallHandler_loop_disconnected in Hc.
Qed.

(** X10: no stall is declared early: if the last activity was at [t0] or
    later, then messages other than not-found received from [t0] on and
    ticks before [t0 + stallResponseTimeout], in any number and order,
    leave a connected peer connected. *)
Theorem no_disconnect_within_timeout s (t0 : Time) (evs : list event) :
  t0 ≤ lastActive s → Forall (harmless t0) evs →
  Connected (stallHandler_loop evs s) = Connected s.
Proof.
  intros Hla Hevs. revert s Hla.
  induction Hevs as [|e evs He _ IH]; intros s Hla; [done|].
  simpl. destruct (Connected s) eqn:Hs; [|done].
  destruct e as [now message|now]; simpl in *.
  - destruct He as [Hnow Hnf].
    rewrite IH by (by rewrite on_ctrMsg_lastActive).
    by rewrite on_ctrMsg_Connected.
  - rewrite on_stallTick_early by lia. by rewrite IH.
Qed.

Lemma on_ctrMsg_pending_subset now message s :
  pendingResponses (on_ctrMsg now message s)
  ⊆ pendingResponses s ∪ expected_keys message.
Proof.
  destruct message as [| |l| | | | |]; simpl; [set_solver|set_solver| |
    set_solver..].
  intros k. rewrite elem_of_union, !elem_of_add_expected. set_solver.
Qed.

(** X11: [pendingResponses] only ever holds keys that were there at the
    start or that a get-blocks or get-data message of the run added. *)
Theorem pending_keys_come_from_requests s (evs : list event) :
  pendingResponses (stallHandler_loop evs s)
  ⊆ pendingResponses s ∪ requested_keys evs.
Proof.
  revert s. induction evs as [|e evs IH]; intros s; simpl; [set_solver|].
  destruct (Connected s); [|set_solver].
  destruct e as [now message|now]; simpl.
  - pose proof (IH (on_ctrMsg now message s)) as Hsub.
    pose proof (on_ctrMsg_pending_subset now message s). set_solver.
  - pose proof (IH (on_stallTick now s)) as Hsub.
    by destruct (on_stallTick_cases now s) as [Heq|Heq]; rewrite Heq in *.
Qed.

Lemma on_ctrMsg_request_pending now message s :
  is_request message = true →
  pendingResponses (on_ctrMsg now message s)
  = pendingResponses s ∪ expected_keys message.
Proof.
  destruct message as [| |l| | | | |]; simpl; try done; intros _.
  - set_solver.
  - rewrite !add_expected_union. set_solver.
Qed.

Lemma on_ctrMsg_request_Connected now message s :
  is_request message = true →
  Connected (on_ctrMsg now message s) = Connected s.
Proof. by destruct message. Qed.

Lemma repeated_request_run request (ts : list Time) s :
  is_request request = true → Connected s = true →
  expected_keys request ⊆ pendingResponses s →
  Connected (stallHandler_loop ((λ u, ctrMsg u request) <$> ts) s) = true ∧
  pendingResponses (stallHandler_loop ((λ u, ctrMsg u request) <$> ts) s)
  = pendingResponses s.
Proof.
  intros Hreq. revert s.
  induction ts as [|u ts IH]; intros s Hc Hin; [done|].
  rewrite fmap_cons. cbn [stallHandler_loop iteration]. rewrite Hc.
  assert (pendingResponses (on_ctrMsg u request s) = pendingResponses s)
    as Hsame by (rewrite on_ctrMsg_request_pending by done; set_solver).
  destruct (IH (on_ctrMsg u request s)) as [Hc2 Hp2].
  - by rewrite on_ctrMsg_request_Connected.
  - by rewrite Hsame.
  - by rewrite Hc2, Hp2, Hsame.
Qed.

(** X12: expectations are not counted: a request sent any number of times
    leaves [pendingResponses] as one such request does, and one message
    that clears a key removes it however often it was requested. *)
Theorem repeated_requests_count_once
    s request response (t t' : Time) (ts : list Time) :
  Connected s = true → is_request request = true →
  let requests := ctrMsg t request :: ((λ u, ctrMsg u request) <$> ts) in
  pendingResponses (stallHandler_loop requests s)
  = pendingResponses (on_ctrMsg t request s) ∧
  ∀ k, cleared_key response = Some k →
       k ∉ pendingResponses
             (stallHandler_loop (requests ++ [ctrMsg t' response]) s).
Proof.
  intros Hc Hreq requests.
  destruct (repeated_request_run request ts (on_ctrMsg t request s) Hreq)
    as [Hc' Hp].
  { by rewrite on_ctrMsg_request_Connected. }
  { apply on_ctrMsg_request. }
  assert (stallHandler_loop requests s
          = stallHandler_loop ((λ u, ctrMsg u request) <$> ts)
              (on_ctrMsg t request s)) as Hrun.
  { subst requests. cbn [stallHandler_loop iteration]. by rewrite Hc. }
  split; [by rewrite Hrun|]. intros k Hk.
  rewrite stallHandler_loop_app, Hrun.
  cbn [stallHandler_loop iteration]. rewrite Hc'.
  destruct response; simpl in *; simplify_eq; set_solver.
Qed.

(** ** Message dispatch and sessions *)

Lemma step_events_Received now message :
  step_events (session_call now (Received message)) = [ctrMsg now message].
Proof. by destruct message. Qed.

Lemma step_events_Queued_request now message :
  is_request message = true →
  step_events (session_call now (Queued message)) = [ctrMsg now message].
Proof. by destruct message. Qed.

Lemma session_events_app steps1 steps2 :
  session_events (steps1 ++ steps2)
  = session_events steps1 ++ session_events steps2.
Proof. unfold session_events. apply bind_app. Qed.

Lemma session_events_tickers (ts : list Time) :
  session_events (ticker <$> ts) = map stallTick ts.
Proof.
  induction ts as [|t ts IH]; [done|].
  rewrite fmap_cons. unfold session_events in *.
  rewrite bind_cons, IH. done.
Qed.

Lemma session_events_Received (responses : list (Time * Message)) :
  session_events ((λ r, session_call r.1 (Received r.2)) <$> responses)
  = (λ r, ctrMsg r.1 r.2) <$> responses.
Proof.
  induction responses as [|r rs IH]; [done|].
  rewrite !fmap_cons. unfold session_events in *.
  rewrite bind_cons, IH, step_events_Received. done.
Qed.

Lemma responses_run (responses : list (Time * Message)) s :
  Connected s = true →
  Forall (λ r, is_request r.2 = false ∧ r.2 ≠ NotFound) responses →
  Connected (stallHandler_loop ((λ r, ctrMsg r.1 r.2) <$> responses) s)
  = true ∧
  pendingResponses
    (stallHandler_loop ((λ r, ctrMsg r.1 r.2) <$> responses) s)
  = pendingResponses s ∖ cleared_keys (responses.*2).
Proof.
  intros Hc Hrs. revert s Hc.
  induction Hrs as [|[now message] rs [Hreq Hnf] _ IH]; intros s Hc.
  { split; [done|]. unfold cleared_keys. simpl. set_solver. }
  rewrite !fmap_cons. cbn [stallHandler_loop iteration fst snd].
  rewrite Hc. simpl in Hreq, Hnf.
  destruct (IH (on_ctrMsg now message s)) as [Hc' Hp].
  { by rewrite on_ctrMsg_Connected. }
  split; [done|]. rewrite Hp. unfold cleared_keys.
  destruct message; simpl in *; try done; set_solver.
Qed.

(** X13: a request sent through [QueueMessage] and then answered through
    [HandleMessage], in any order and with any other responses in between,
    leaves nothing pending once the received messages clear every key the
    request added; from then on no tick disconnects the peer, however
    late. *)
Theorem answered_request_leaves_nothing_pending
    p request (T : Time) (responses : list (Time * Message))
    (ts : list Time) :
  Peer_connected p = true → is_request request = true →
  Forall (λ r, is_request r.2 = false ∧ r.2 ≠ NotFound) responses →
  expected_keys request ⊆ cleared_keys (responses.*2) →
  let steps :=
    session_call T (Queued request)
    :: ((λ r, session_call r.1 (Received r.2)) <$> responses) in
  pendingResponses
    (stallHandler_loop (session_events steps) (stallHandler_start p)) = ∅ ∧
  Peer_connected (stallHandler (session_events (steps ++ (ticker <$> ts))) p)
  = true.
Proof.
  intros Hc Hreq Hrs Hkeys steps.
  assert (session_events steps
          = ctrMsg T request :: ((λ r, ctrMsg r.1 r.2) <$> responses))
    as Hevs.
  { subst steps. unfold session_events. rewrite bind_cons.
    rewrite step_events_Queued_request by done.
    fold (session_events
            ((λ r, session_call r.1 (Received r.2)) <$> responses)).
    by rewrite session_events_Received. }
  set (s1 := on_ctrMsg T request (stallHandler_start p)).
  assert (stallHandler_loop (session_events steps) (stallHandler_start p)
          = stallHandler_loop ((λ r, ctrMsg r.1 r.2) <$> responses) s1)
    as Hrun.
  { rewrite Hevs. cbn [stallHandler_loop iteration].
    by replace (Connected (stallHandler_start p)) with true. }
  destruct (responses_run responses s1) as [Hc' Hp]; [|done|].
  { unfold s1. by rewrite on_ctrMsg_request_Connected. }
  assert (pendingResponses
            (stallHandler_loop (session_events steps) (stallHandler_start p))
          = ∅) as Hempty.
  { rewrite Hrun, Hp. unfold s1.
    rewrite on_ctrMsg_request_pending by done. simpl. set_solver. }
  split; [done|]. unfold stallHandler. cbn [Peer_connected].
  rewrite session_events_app, session_events_tickers, stallHandler_loop_app.
  rewrite stallHandler_loop_idle_ticks by done. by rewrite Hrun.
Qed.

Lemma omap_actions_cons {B} (f : action → option B) c calls :
  omap f (actions (c :: calls)) = omap f (perform c) ++ omap f (actions calls).
Proof. unfold actions. by rewrite bind_cons, omap_app. Qed.

Lemma completed_running full acts : completed true full acts = acts.
Proof.
  induction acts as [|a acts IH]; [done|].
  destruct a; simpl; by rewrite IH.
Qed.

Lemma completed_prefix full acts : completed false full acts `prefix_of` acts.
Proof.
  revert full. induction acts as [|a acts IH]; intros full; [done|].
  destruct a; simpl; try (by apply prefix_cons).
  destruct full; [apply prefix_nil|by apply prefix_cons].
Qed.

Lemma completed_sends full acts :
  (length (omap sent_to_stallControl (completed false full acts))
   ≤ if full then 0 else 1)%nat.
Proof.
  revert full. induction acts as [|a acts IH]; intros full.
  { simpl. destruct full; lia. }
  destruct a; simpl; try apply IH.
  destruct full; simpl; [lia|]. apply le_n_S. exact (IH true).
Qed.

(** X14: while the handler runs, the stall detector is sent every received
    message, every message given to [StallMessage], and of the queued
    messages the get-blocks and get-data requests alone, in call order, and
    the peer is given every queued message, in call order.  Once the
    handler has left, a goroutine gets done only an initial part of its
    actions, with at most one more send; with the slot of the channel
    taken, [QueueMessage] of a request and [HandleMessage] of any message
    get nothing done: the message does not reach the peer, no callback is
    called, and nothing after them is done. *)
Theorem only_requests_reach_the_detector (calls : list call) (full : bool) :
  omap sent_to_stallControl (completed true full (actions calls))
  = omap (λ c, match c with
               | Received message | Stalled message => Some message
               | Queued message =>
                   if is_request message then Some message else None
               end) calls ∧
  omap sent_to_Peer (completed true full (actions calls))
  = omap (λ c, match c with
               | Queued message => Some message
               | _ => None
               end) calls ∧
  completed false full (actions calls) `prefix_of` actions calls ∧
  (length (omap sent_to_stallControl (completed false full (actions calls)))
   ≤ if full then 0 else 1)%nat ∧
  (∀ message, is_request message = true →
     completed false true (actions (Queued message :: calls)) = []) ∧
  (∀ message, completed false true (actions (Received message :: calls)) = []).
Proof.
  rewrite completed_running.
  split; [|split; [|split; [|split; [|split]]]].
  - induction calls as [|c calls IH]; [done|].
    rewrite omap_actions_cons, IH.
    destruct c as [m|m|m]; destruct m; reflexivity.
  - induction calls as [|c calls IH]; [done|].
    rewrite omap_actions_cons, IH.
    destruct c as [m|m|m]; destruct m; reflexivity.
  - apply completed_prefix.
  - apply completed_sends.
  - intros message Hreq. unfold actions. rewrite bind_cons.
    by destruct message.
  - intros message. unfold actions. rewrite bind_cons. by destruct message.
Qed.

Lemma actions_cons c calls : actions (c :: calls) = perform c ++ actions calls.
Proof. unfold actions. by rewrite bind_cons. Qed.

(** X15: a callback is called only for a message of its own kind, and only
    directly after that very message was sent to the stall detector. *)
Theorem handler_follows_notification
    (calls : list call) (pre post : list action) (h : handler) message :
  actions calls = pre ++ config_call h message :: post →
  handler_of message = Some h ∧
  ∃ pre', pre = pre' ++ [stallControl_send message].
Proof.
  revert pre. induction calls as [|c calls IH]; intros pre Heq.
  { by destruct pre. }
  rewrite actions_cons in Heq.
  assert (∀ pre2, actions calls = pre2 ++ config_call h message :: post →
                  ∀ front, handler_of message = Some h ∧
                    ∃ pre', front ++ pre2 = pre' ++ [stallControl_send message])
    as Hrest.
  { intros pre2 Heq2 front. destruct (IH pre2 Heq2) as [Hh [pre' ->]].
    split; [done|]. exists (front ++ pre'). by rewrite app_assoc. }
  destruct c as [m|m|m]; destruct m; simpl in Heq;
    repeat (destruct pre as [|? pre];
            [simplify_eq/=; try (split; [done|]; by exists [])|
             injection Heq as <- Heq]);
    try (by (eapply (Hrest _ Heq [_])));
    try (by (eapply (Hrest _ Heq [_; _]))).
Qed.

Lemma unrequested_run evs s :
  pendingResponses s = ∅ → Forall unrequested evs →
  Connected (stallHandler_loop evs s) = Connected s ∧
  pendingResponses (stallHandler_loop evs s) = ∅.
Proof.
  intros Hp Hevs. revert s Hp.
  induction Hevs as [|e evs He _ IH]; intros s Hp; [done|].
  simpl. destruct (Connected s) eqn:Hc; [|by rewrite Hc].
  destruct e as [now message|now]; simpl in *.
  - destruct He as [Hreq Hnf].
    destruct (IH (on_ctrMsg now message s)) as [Hc' Hp'].
    { destruct message; simpl in *; try done; set_solver. }
    by rewrite Hc', Hp', on_ctrMsg_Connected.
  - rewrite on_stallTick_idle by done. rewrite <- Hc. by apply IH.
Qed.

(** X17: a session that has sent no request is never disconnected for
    stalling: from [NewSPVPeer] on, ticks at any times and received
    messages other than requests and not-found leave the peer as connected
    as it was, and nothing pending. *)
Theorem new_session_never_stalls (peer_connected : bool) (evs : list event) :
  Forall unrequested evs →
  Peer_connected (stallHandler evs (NewSPVPeer peer_connected))
  = peer_connected ∧
  pendingResponses
    (stallHandler_loop evs (stallHandler_start (NewSPVPeer peer_connected)))
  = ∅.
Proof.
  intros Hevs. unfold stallHandler. cbn [Peer_connected].
  by destruct (unrequested_run evs
                 (stallHandler_start (NewSPVPeer peer_connected))
                 eq_refl Hevs) as [-> ->].
Qed.

(** X18: the detector does not tell a received request from a sent one:
    [HandleMessage] forwards a get-blocks or get-data message that the peer
    sends just as [QueueMessage] forwards one that the session sends, so
    such a message from the peer, left unanswered, gets the peer
    disconnected by the first tick at [stallResponseTimeout] or later. *)
Theorem received_request_is_expected_too
    p request (T t : Time) :
  Peer_connected p = true → expects_response request →
  T + stallResponseTimeout ≤ t →
  step_events (session_call T (Received request))
  = step_events (session_call T (Queued request)) ∧
  Peer_connected
    (stallHandler
       (session_events [session_call T (Received request); ticker t]) p)
  = false.
Proof.
  intros Hc Hreq Ht.
  assert (is_request request = true) as Hr by (by destruct request).
  rewrite step_events_Received, step_events_Queued_request by done.
  split; [done|].
  unfold stallHandler. cbn [Peer_connected].
  change (session_events [session_call T (Received request); ticker t])
    with (step_events (session_call T (Received request)) ++ [stallTick t]).
  rewrite step_events_Received.
  cbn [app stallHandler_loop iteration].
  replace (Connected (stallHandler_start p)) with true by done.
  rewrite on_ctrMsg_request_Connected by done.
  replace (Connected (stallHandler_start p)) with true by done.
  rewrite on_stallTick_late; [done| |by rewrite on_ctrMsg_lastActive].
  pose proof (expected_keys_non_empty _ Hreq) as Hne.
  pose proof (on_ctrMsg_request T request (stallHandler_start p)) as Hsub.
  set_solver.
Qed.

End SPVPeer.

(** ** [GetSPVClient] *)

(** X16: for a network type that is neither [TypeMainNet] nor
    [TypeTestNet], [GetSPVClient] returns no client and the error
    [Unknown net type ], whatever the identifier and the seeds; for the two
    known types it returns what [NewSPVClientImpl] returns for that
    network's magic number, so no client is ever made with another magic
    number. *)
Theorem GetSPVClient_net_type `{Networks SPVClient}
    (netType : string) (clientId : Z) (seeds : list string) :
  (netType ≠ TypeMainNet → netType ≠ TypeTestNet →
   GetSPVClient netType clientId seeds = (None, Some "Unknown net type ")) ∧
  (netType = TypeMainNet →
   GetSPVClient netType clientId seeds
   = NewSPVClientImpl MainNetMagic clientId seeds) ∧
  (netType = TypeTestNet → netType ≠ TypeMainNet →
   GetSPVClient netType clientId seeds
   = NewSPVClientImpl TestNetMagic clientId seeds) ∧
  (GetSPVClient netType clientId seeds = (None, Some "Unknown net type ") ∨
   ∃ magic, magic ∈ [MainNetMagic; TestNetMagic] ∧
            GetSPVClient netType clientId seeds
            = NewSPVClientImpl magic clientId seeds).
Proof.
  unfold GetSPVClient, net_magic.
  repeat case_bool_decide; (split; [|split; [|split]]); try done.
  - right. exists MainNetMagic. split; [set_solver|done].
  - right. exists TestNetMagic. split; [set_solver|done].
  - by left.
Qed.

(** * The statements at concrete inputs *)

Lemma finished_iff_all_dequeued_witness :
  let d : downloadBlock (core_Transaction := N) (msg_MerkleBlock := N) :=
    {| MerkleBlock := Some 7%N; txQueue := {[1; 2; 3]}%N; txs := [] |} in
  let ds := [3; 1; 2]%N in
  NoDup ds ∧ list_to_set ds = txQueue d ∧
  downloadBlock_finished
    (foldl downloadBlock_call d (map Dequeue (take 2 ds))) = false ∧
  downloadBlock_finished
    (foldl downloadBlock_call d (map Dequeue (take 3 ds))) = true.
Proof.
  intros d ds.
  assert (NoDup ds) as Hnd
    by (repeat (constructor; [set_solver|]); constructor).
  assert (list_to_set ds = txQueue d) as Hds by (simpl; set_solver).
  split; [exact Hnd|]. split; [exact Hds|]. split.
  - destruct (finished_iff_all_dequeued d ds 2 Hnd Hds) as (_ & _ & Hfin).
    rewrite Hfin. apply bool_decide_eq_false_2.
    rewrite <- (proj1 (proj2 (finished_iff_all_dequeued d ds 2 Hnd Hds))).
    simpl. lia.
  - destruct (finished_iff_all_dequeued d ds 3 Hnd Hds) as (_ & _ & Hfin).
    rewrite Hfin. apply bool_decide_eq_true_2.
    rewrite <- (proj1 (proj2 (finished_iff_all_dequeued d ds 3 Hnd Hds))).
    simpl. lia.
Defined.

Lemma tracker_size_after_calls_witness :
  let ops := [Enqueue 1; Enqueue 2; Dequeue 1; Enqueue 3]%N in
  NoDup (enqueued ops) ∧ NoDup (dequeued ops) ∧
  dequeues_follow_enqueues ops ∧
  size (queue (downloadTx_run ops)) = 2%nat ∧
  size (txQueue (downloadBlock_run (core_Transaction := N)
                   (msg_MerkleBlock := N) ops)) = 2%nat ∧
  downloadTx_dequeueTx (downloadTx_run ops) 7%N = (downloadTx_run ops, false).
Proof.
  intros ops.
  assert (NoDup (enqueued ops)) as Hne
    by (repeat (constructor; [set_solver|]); constructor).
  assert (NoDup (dequeued ops)) as Hnd
    by (repeat (constructor; [set_solver|]); constructor).
  assert (dequeues_follow_enqueues ops) as Hf.
  { intros pre x post Heq.
    do 5 (destruct pre as [|? pre]; simplify_eq/=; try set_solver). }
  destruct (tracker_size_after_calls (core_Transaction := N)
              (msg_MerkleBlock := N) ops) as [Hsize Hmiss].
  destruct (Hsize Hne Hnd Hf) as (_ & Htx & Hblock).
  split; [exact Hne|]. split; [exact Hnd|]. split; [exact Hf|].
  split; [exact Htx|]. split; [exact Hblock|].
  apply Hmiss. set_solver.
Defined.

Lemma repeated_dequeue_breaks_size :
  ¬ size_is_enqueues_minus_dequeues
      [Enqueue 1; Enqueue 2; Dequeue 1; Dequeue 1]%N.
Proof.
  intros Hsize.
  assert (size (queue (downloadTx_run
                         [Enqueue 1; Enqueue 2; Dequeue 1; Dequeue 1]%N))
          = 0%nat) as Hzero.
  { apply Hsize.
    - repeat (constructor; [set_solver|]); constructor.
    - intros pre x post Heq.
      do 5 (destruct pre as [|? pre]; simplify_eq/=; try set_solver).
    - simpl. lia. }
  vm_compute in Hzero. discriminate.
Qed.

Lemma dequeueTx_reports_presence_witness :
  let d := downloadTx_queueTx (downloadTx_queueTx newDownloadTx 1%N) 2%N in
  1%N ∈ queue d ∧
  snd (downloadTx_dequeueTx d 1%N) = true ∧
  queue (fst (downloadTx_dequeueTx d 1%N)) = queue d ∖ {[1%N]} ∧
  (3%N ∉ queue d) ∧
  downloadTx_dequeueTx d 3%N = (d, false).
Proof.
  intros d.
  assert (1%N ∈ queue d) as Hin by (simpl; set_solver).
  assert (3%N ∉ queue d) as Hout by (simpl; set_solver).
  destruct (dequeueTx_reports_presence (core_Transaction := N)
              (msg_MerkleBlock := N) 1%N) as [Htx _].
  destruct (dequeueTx_reports_presence (core_Transaction := N)
              (msg_MerkleBlock := N) 3%N) as [Htx3 _].
  destruct (Htx d) as [Hpresent _]. destruct (Htx3 d) as [_ Habsent].
  destruct (Hpresent Hin) as [Hfound Hremoved].
  split; [exact Hin|]. split; [exact Hfound|]. split; [exact Hremoved|].
  split; [exact Hout|]. exact (Habsent Hout).
Defined.

Lemma stall_timeout_boundary_witness :
  let s := {| connected := true; pendingResponses := ∅; lastActive := 0 |} in
  let request : Message (Uint256 := N) (core_Transaction := N)
                  (msg_MerkleBlock := N) := GetBlocks in
  let T := 100 * Second in
  Connected s = true ∧ expects_response request ∧
  Forall (λ t', t' < T + stallResponseTimeout) [T + 14 * Second] ∧
  Connected (stallHandler_loop (External0 := numbered)
               [ctrMsg T request; stallTick (T + 14 * Second);
                stallTick (T + 29 * Second)] s) = true ∧
  Connected (stallHandler_loop (External0 := numbered)
               [ctrMsg T request; stallTick (T + 14 * Second);
                stallTick (T + 31 * Second)] s) = false.
Proof.
  intros s request T.
  assert (Forall (λ t', t' < T + stallResponseTimeout) [T + 14 * Second])
    as Hts by (repeat constructor).
  split; [reflexivity|]. split; [exact I|]. split; [exact Hts|]. split.
  - apply (stall_timeout_boundary (External0 := numbered) s request T
             (T + 29 * Second) [T + 14 * Second] eq_refl I Hts).
    reflexivity.
  - apply (stall_timeout_boundary (External0 := numbered) s request T
             (T + 31 * Second) [T + 14 * Second] eq_refl I Hts).
    reflexivity.
Defined.

Lemma tick_without_pending_is_noop_witness :
  let s := {| connected := true; pendingResponses := ∅; lastActive := 0 |} in
  pendingResponses s = ∅ ∧
  iteration (External0 := numbered) (stallTick (3600 * Second)) s = s.
Proof.
  intros s. split; [reflexivity|].
  apply (tick_without_pending_is_noop (External0 := numbered) s
           (3600 * Second) [] eq_refl).
Defined.

Lemma traffic_refreshes_lastActive_witness :
  let s := {| connected := true; pendingResponses := ∅; lastActive := 0 |} in
  let request : Message (Uint256 := N) (core_Transaction := N)
                  (msg_MerkleBlock := N) :=
    GetData [{| InvVect_Type := 2; InvVect_Hash := 5%N |}] in
  let T0 := 100 * Second in
  Connected s = true ∧ expects_response request ∧
  unrelated_to (External0 := numbered) request (Tx 9%N) ∧
  Connected (stallHandler_loop (External0 := numbered)
               [ctrMsg T0 request; ctrMsg (T0 + 15 * Second) (Tx 9%N);
                stallTick (T0 + 31 * Second)] s) = true ∧
  Connected (stallHandler_loop (External0 := numbered)
               [ctrMsg T0 request; ctrMsg (T0 + 15 * Second) (Tx 9%N);
                stallTick (T0 + 31 * Second);
                stallTick (T0 + 46 * Second)] s) = false.
Proof.
  intros s request T0.
  assert (expects_response request) as Hreq by discriminate.
  assert (unrelated_to (External0 := numbered) request (Tx 9%N)) as Hun.
  { split; [discriminate|]. intros k [= <-].
    apply (bool_decide_unpack _). by vm_compute. }
  split; [reflexivity|]. split; [exact Hreq|]. split; [exact Hun|].
  apply (traffic_refreshes_lastActive (External0 := numbered) s request
           (Tx 9%N) T0 (T0 + 31 * Second) (T0 + 46 * Second)
           eq_refl Hreq Hun); [reflexivity|discriminate].
Defined.



(** The end-to-end scenario: a block-inventory request and its answer, a
    data request for three blocks, merkle blocks for the first and the
    third, and a tick after the timeout with the second still pending. *)
Example stalled_on_second_block :
  let iv h := {| InvVect_Type := 2; InvVect_Hash := h |} in
  let s := {| connected := true; pendingResponses := ∅; lastActive := 0 |} in
  let evs1 : list (event (Uint256 := N) (core_Transaction := N)
                     (msg_MerkleBlock := N)) :=
    [ctrMsg (1 * Second) GetBlocks;
     ctrMsg (2 * Second) Inventory;
     ctrMsg (3 * Second) (GetData [iv 1%N; iv 2%N; iv 3%N]);
     ctrMsg (4 * Second) (MerkleBlockMsg 1%N);
     ctrMsg (5 * Second) (MerkleBlockMsg 3%N);
     stallTick (16 * Second)] in
  stallHandler_loop (External0 := numbered) evs1 s
  = {| connected := true; pendingResponses := {["2"]};
       lastActive := 5 * Second |} ∧
  stallHandler_loop (External0 := numbered)
    (evs1 ++ [stallTick (31 * Second)]) s
  = {| connected := true; pendingResponses := {["2"]};
       lastActive := 5 * Second |} ∧
  stallHandler_loop (External0 := numbered)
    (evs1 ++ [stallTick (31 * Second); stallTick (35 * Second)]) s
  = {| connected := false; pendingResponses := {["2"]};
       lastActive := 5 * Second |}.
Proof. vm_compute. done. Qed.

(** ** Further properties at concrete inputs *)

Lemma enqueue_dequeue_round_trip_witness :
  let d := newDownloadTx (Uint256 := N) in
  let b : downloadBlock (core_Transaction := N) (msg_MerkleBlock := N) :=
    {| MerkleBlock := Some 7%N; txQueue := {[1%N]}; txs := [9%N] |} in
  (5%N ∉ queue d) ∧
  downloadTx_dequeueTx (downloadTx_queueTx d 5%N) 5%N = (d, true) ∧
  (1%N ∈ txQueue b) ∧
  downloadBlock_enqueueTx (fst (downloadBlock_dequeueTx b 1%N)) 1%N = b.
Proof.
  intros d b.
  assert (5%N ∉ queue d) as Hout by (simpl; set_solver).
  assert (1%N ∈ txQueue b) as Hin by (simpl; set_solver).
  destruct (enqueue_dequeue_round_trip d b 5%N) as (Hfresh & _).
  destruct (enqueue_dequeue_round_trip d b 1%N) as (_ & _ & _ & Hback).
  split; [exact Hout|]. split; [exact (Hfresh Hout)|].
  split; [exact Hin|]. exact (Hback Hin).
Defined.

Lemma calls_on_other_identifiers_commute_witness :
  let d := downloadTx_queueTx (newDownloadTx (Uint256 := N)) 2%N in
  let b := newDownloadBlock (Uint256 := N) (core_Transaction := N)
             (msg_MerkleBlock := N) in
  names 2%N (Enqueue 1%N) = false ∧ names 2%N (Dequeue 2%N) = true ∧
  downloadTx_call (downloadTx_call d (Enqueue 1%N)) (Dequeue 2%N)
  = downloadTx_call (downloadTx_call d (Dequeue 2%N)) (Enqueue 1%N) ∧
  snd (downloadTx_dequeueTx (downloadTx_call d (Enqueue 1%N)) 2%N)
  = snd (downloadTx_dequeueTx d 2%N).
Proof.
  intros d b.
  destruct (calls_on_other_identifiers_commute d b (Enqueue 1%N)
              (Dequeue 2%N) 2%N eq_refl) as (Hcomm & Hsame & _).
  split; [reflexivity|]. split; [reflexivity|].
  split; [exact (proj1 (Hcomm eq_refl))|exact Hsame].
Defined.

Lemma downloadBlock_calls_frame_witness :
  let b : downloadBlock (core_Transaction := N) (msg_MerkleBlock := N) :=
    {| MerkleBlock := Some 7%N; txQueue := {[1%N]}; txs := [9%N] |} in
  let d := {| queue := {[1%N]} |} in
  let ops := [Enqueue 2%N; Dequeue 1%N; Dequeue 3%N] in
  queue d = txQueue b ∧
  MerkleBlock (foldl downloadBlock_call b ops) = Some 7%N ∧
  txs (foldl downloadBlock_call b ops) = [9%N] ∧
  downloadBlock_results b ops = downloadTx_results d ops.
Proof.
  intros b d ops.
  destruct (downloadBlock_calls_frame b d ops eq_refl)
    as (Hm & Hl & _ & Hres).
  split; [reflexivity|]. split; [exact Hm|]. split; [exact Hl|exact Hres].
Defined.

Lemma tick_disconnects_iff_witness :
  let s := {| connected := true; pendingResponses := {["inv"]};
              lastActive := 100 * Second |} in
  Connected s = true ∧
  Connected (iteration (External0 := numbered)
               (stallTick (100 * Second + stallResponseTimeout)) s) = false ∧
  Connected (iteration (External0 := numbered)
               (stallTick (100 * Second + stallResponseTimeout - 1)) s)
  ≠ false.
Proof.
  intros s.
  destruct (tick_disconnects_iff (External0 := numbered) s
              (100 * Second + stallResponseTimeout) eq_refl) as [Hat _].
  destruct (tick_disconnects_iff (External0 := numbered) s
              (100 * Second + stallResponseTimeout - 1) eq_refl)
    as [Hbefore _].
  split; [reflexivity|]. split.
  - apply Hat. split; [|reflexivity]. simpl.
    intros Hempty. apply (not_elem_of_empty (C := gset string) "inv").
    rewrite <- Hempty. by apply elem_of_singleton.
  - intros Hd. apply Hbefore in Hd as [_ Hle]. by apply Hle.
Defined.

Lemma disconnect_is_final_witness :
  let s := {| connected := true; pendingResponses := ∅; lastActive := 0 |} in
  let p := {| Peer_connected := true;
              downloading := newDownloadBlock (core_Transaction := N)
                               (msg_MerkleBlock := N);
              peer_downloadTx := newDownloadTx (Uint256 := N);
              receivedTxs := 0; fPositives := 0 |} in
  let evs1 : list (event (Uint256 := N) (core_Transaction := N)
                     (msg_MerkleBlock := N)) :=
    [ctrMsg (1 * Second) NotFound] in
  let evs2 := [ctrMsg (2 * Second) GetBlocks; stallTick (3 * Second)] in
  Connected (stallHandler_loop (External0 := numbered) evs1 s) = false ∧
  stallHandler_loop (External0 := numbered) (evs1 ++ evs2) s
  = stallHandler_loop (External0 := numbered) evs1 s ∧
  stallHandler (External0 := numbered) (evs1 ++ evs2) p
  = stallHandler (External0 := numbered) evs1 p.
Proof.
  intros s p evs1 evs2.
  destruct (disconnect_is_final (External0 := numbered) s p evs1 evs2)
    as [Hloop Hpeer].
  split; [reflexivity|]. split; [exact (Hloop eq_refl)|exact (Hpeer eq_refl)].
Defined.

Lemma ticks_leave_no_trace_witness :
  let s := {| connected := true; pendingResponses := ∅; lastActive := 0 |} in
  let evs : list (event (Uint256 := N) (core_Transaction := N)
                    (msg_MerkleBlock := N)) :=
    [stallTick (5 * Second); ctrMsg (10 * Second) GetBlocks;
     stallTick (20 * Second)] in
  Connected (stallHandler_loop (External0 := numbered) evs s) = true ∧
  stallHandler_loop (External0 := numbered) evs s
  = stallHandler_loop (External0 := numbered)
      [ctrMsg (10 * Second) GetBlocks] s.
Proof.
  intros s evs.
  assert (Connected (stallHandler_loop (External0 := numbered) evs s) = true)
    as Hc by (by vm_compute).
  split; [exact Hc|].
  exact (ticks_leave_no_trace (External0 := numbered) s evs Hc).
Defined.

Lemma no_disconnect_within_timeout_witness :
  let s := {| connected := true; pendingResponses := {["inv"]};
              lastActive := 100 * Second |} in
  let evs : list (event (Uint256 := N) (core_Transaction := N)
                    (msg_MerkleBlock := N)) :=
    [stallTick (110 * Second); ctrMsg (120 * Second) Reject;
     stallTick (129 * Second)] in
  100 * Second ≤ lastActive s ∧ Forall (harmless (100 * Second)) evs ∧
  Connected (stallHandler_loop (External0 := numbered) evs s) = true.
Proof.
  intros s evs.
  assert (100 * Second ≤ lastActive s) as Hla by (simpl; lia).
  assert (Forall (harmless (100 * Second)) evs) as Hevs.
  { repeat constructor; try discriminate; simpl;
      unfold stallResponseTimeout, Second; lia. }
  split; [exact Hla|]. split; [exact Hevs|].
  exact (no_disconnect_within_timeout (External0 := numbered) s
           (100 * Second) evs Hla Hevs).
Defined.

Lemma repeated_requests_count_once_witness :
  let s := {| connected := true; pendingResponses := ∅; lastActive := 0 |} in
  let request : Message (Uint256 := N) (core_Transaction := N)
                  (msg_MerkleBlock := N) := GetBlocks in
  let requests := [ctrMsg (1 * Second) request; ctrMsg (2 * Second) request;
                   ctrMsg (3 * Second) request] in
  Connected s = true ∧ is_request request = true ∧
  pendingResponses (stallHandler_loop (External0 := numbered) requests s)
  = pendingResponses (on_ctrMsg (External0 := numbered) (1 * Second)
                        request s) ∧
  "inv" ∉ pendingResponses
            (stallHandler_loop (External0 := numbered)
               (requests ++ [ctrMsg (4 * Second) Inventory]) s).
Proof.
  intros s request requests.
  destruct (repeated_requests_count_once (External0 := numbered) s request
              Inventory (1 * Second) (4 * Second) [2 * Second; 3 * Second]
              eq_refl eq_refl) as [Hsame Hcleared].
  split; [reflexivity|]. split; [reflexivity|].
  split; [exact Hsame|]. exact (Hcleared "inv" eq_refl).
Defined.

Lemma answered_request_leaves_nothing_pending_witness :
  let p := {| Peer_connected := true;
              downloading := newDownloadBlock (core_Transaction := N)
                               (msg_MerkleBlock := N);
              peer_downloadTx := newDownloadTx (Uint256 := N);
              receivedTxs := 0; fPositives := 0 |} in
  let request :=
    GetData [{| InvVect_Type := 2; InvVect_Hash := 1%N |};
             {| InvVect_Type := 1; InvVect_Hash := 2%N |}] in
  let responses := [(2 * Second, Tx 2%N); (3 * Second, Reject);
                    (4 * Second, MerkleBlockMsg 1%N)] in
  let steps :=
    session_call (1 * Second) (Queued request)
    :: ((λ r, session_call r.1 (Received r.2)) <$> responses) in
  Peer_connected p = true ∧ is_request request = true ∧
  Forall (λ r, is_request r.2 = false ∧ r.2 ≠ NotFound) responses ∧
  expected_keys (External0 := numbered) request
  ⊆ cleared_keys (External0 := numbered) (responses.*2) ∧
  Peer_connected
    (stallHandler (External0 := numbered)
       (session_events (steps ++ (ticker <$> [3600 * Second]))) p) = true.
Proof.
  intros p request responses steps.
  assert (Forall (λ r, is_request r.2 = false ∧ r.2 ≠ NotFound) responses)
    as Hrs by (repeat constructor; discriminate).
  assert (expected_keys (External0 := numbered) request
          ⊆ cleared_keys (External0 := numbered) (responses.*2)) as Hkeys
    by (apply (bool_decide_unpack _); by vm_compute).
  split; [reflexivity|]. split; [reflexivity|].
  split; [exact Hrs|]. split; [exact Hkeys|].
  exact (proj2 (answered_request_leaves_nothing_pending
                  (External0 := numbered) p request (1 * Second) responses
                  [3600 * Second] eq_refl eq_refl Hrs Hkeys)).
Defined.

Lemma handler_follows_notification_witness :
  let calls : list (call (Uint256 := N) (core_Transaction := N)
                      (msg_MerkleBlock := N)) :=
    [Queued GetBlocks; Received Inventory] in
  actions calls
  = [stallControl_send GetBlocks; Peer_QueueMessage GetBlocks;
     stallControl_send Inventory]
    ++ config_call OnInventory Inventory :: [] ∧
  handler_of (Uint256 := N) (core_Transaction := N) (msg_MerkleBlock := N)
    Inventory = Some OnInventory.
Proof.
  intros calls.
  assert (actions calls
          = [stallControl_send GetBlocks; Peer_QueueMessage GetBlocks;
             stallControl_send Inventory]
            ++ config_call OnInventory Inventory :: []) as Heq
    by reflexivity.
  split; [exact Heq|].
  exact (proj1 (handler_follows_notification calls _ _ _ _ Heq)).
Defined.

Lemma GetSPVClient_net_type_witness :
  "RegNet" ≠ TypeMainNet (Networks := two_networks) ∧
  "RegNet" ≠ TypeTestNet (Networks := two_networks) ∧
  GetSPVClient (H := two_networks) "RegNet" 7 ["127.0.0.1:20866"]
  = (None, Some "Unknown net type ") ∧
  GetSPVClient (H := two_networks) "TestNet" 7 ["127.0.0.1:20866"]
  = (Some (2, 7), None).
Proof.
  assert ("RegNet" ≠ TypeMainNet (Networks := two_networks)) as Hm
    by discriminate.
  assert ("RegNet" ≠ TypeTestNet (Networks := two_networks)) as Ht
    by discriminate.
  split; [exact Hm|]. split; [exact Ht|]. split.
  - exact (proj1 (GetSPVClient_net_type (H := two_networks) "RegNet" 7
                    ["127.0.0.1:20866"]) Hm Ht).
  - exact (proj1 (proj2 (proj2 (GetSPVClient_net_type (H := two_networks)
                    "TestNet" 7 ["127.0.0.1:20866"]))) eq_refl
             ltac:(discriminate)).
Defined.

Lemma new_session_never_stalls_witness :
  let evs : list (event (Uint256 := N) (core_Transaction := N)
                    (msg_MerkleBlock := N)) :=
    [stallTick (15 * Second); ctrMsg (20 * Second) Inventory;
     ctrMsg (21 * Second) (Tx 4%N); stallTick (3600 * Second)] in
  Forall unrequested evs ∧
  Peer_connected (stallHandler (External0 := numbered) evs (NewSPVPeer true))
  = true.
Proof.
  intros evs.
  assert (Forall unrequested evs) as Hevs
    by (repeat constructor; discriminate).
  split; [exact Hevs|].
  exact (proj1 (new_session_never_stalls (External0 := numbered) true evs
                  Hevs)).
Defined.

Lemma received_request_is_expected_too_witness :
  let request : Message (Uint256 := N) (core_Transaction := N)
                  (msg_MerkleBlock := N) := GetBlocks in
  Peer_connected (NewSPVPeer (Uint256 := N) (core_Transaction := N)
                    (msg_MerkleBlock := N) true) = true ∧
  expects_response request ∧
  10 * Second + stallResponseTimeout ≤ 40 * Second ∧
  Peer_connected
    (stallHandler (External0 := numbered)
       (session_events [session_call (10 * Second) (Received request);
                        ticker (40 * Second)])
       (NewSPVPeer true))
  = false.
Proof.
  intros request.
  assert (10 * Second + stallResponseTimeout ≤ 40 * Second) as Ht
    by discriminate.
  split; [reflexivity|]. split; [exact I|]. split; [exact Ht|].
  exact (proj2 (received_request_is_expected_too (External0 := numbered)
                  (NewSPVPeer true) request (10 * Second) (40 * Second)
                  eq_refl I Ht)).
Defined.

Lemma only_requests_reach_the_detector_witness :
  let request : Message (Uint256 := N) (core_Transaction := N)
                  (msg_MerkleBlock := N) := GetBlocks in
  let calls := [Queued OtherMessage; Received Inventory] in
  is_request request = true ∧
  completed false true (actions (Queued request :: calls)) = [] ∧
  completed false true (actions (Received Inventory :: calls)) = [] ∧
  omap sent_to_Peer (completed true true (actions (Queued request :: calls)))
  = [request; OtherMessage].
Proof.
  intros request calls.
  destruct (only_requests_reach_the_detector calls true)
    as (_ & _ & _ & _ & Hqueue & Hhandle).
  destruct (only_requests_reach_the_detector (Queued request :: calls) true)
    as (_ & Hpeer & _).
  split; [reflexivity|]. split; [exact (Hqueue request eq_refl)|].
  split; [exact (Hhandle Inventory)|exact Hpeer].
Defined.

(** After the handler has left with the slot of the channel free: the
    first request is queued, the second blocks before it reaches the peer,
    and nothing after it is done. *)
Example second_request_blocks_after_exit :
  completed false false
    (actions (Uint256 := N) (core_Transaction := N) (msg_MerkleBlock := N)
       [Queued GetBlocks; Queued GetBlocks; Queued OtherMessage])
  = [stallControl_send GetBlocks; Peer_QueueMessage GetBlocks].
Proof. reflexivity. Qed.
